(** * Blemish removal: patch scoring, donor selection, interactive loop

    A shallow embedding of [blemish_removal.cpp]: [loadImageOrExit],
    [saveImageOrExit], [computePatchVariance], [selectBestPatch],
    [onMouse], [runBlemishRemoval] and [main].

    Modelling conventions.
    - A [cv::Mat] is a header (allocation, window offset, [rows], [cols])
      over a store of pixel buffers, so that views ([image(Range, Range)])
      alias their parent and [clone] / [copyTo] copy pixels.  All matrices
      of the store are [CV_8UC3], the type [imread(.., IMREAD_COLOR)]
      produces.
    - A C++ [int] is an integer of [Z] in the range of 32 bits.  The [int]
      operations of the source are written with their two's-complement
      wrap-around, and the conversion of a [double] outside the range of
      [int] gives [INT_MIN], as the conversion instruction of x86-64 does.
      C++ leaves both undefined; [no_overflow] says that neither occurs.
    - The [double] arithmetic written in the source itself (the candidate
      centres of [selectBestPatch], the scale passed to [Laplacian], the
      comparison of scores) is IEEE-754 binary64, evaluated with the
      operations of [SpecFloat].
    - [cvtColor] is given its documented value for 8-bit input (the V
      plane is the maximum of the three bytes).  The floating-point
      kernels [Laplacian], [pow] and [sum] are parameters ([Imgproc]): the
      source fixes their arguments, not the rounding of their [CV_32F]
      arithmetic.  [seamlessClone], [circle], [imread] and [imwrite] are
      parameters as well ([Photo], [Imgcodecs]). *)

From Stdlib Require Import String ZArith Lia Bool.
From Stdlib Require Import Floats.SpecFloat.
From stdpp Require Import base list option.

Local Open Scope Z_scope.

(** ** Outcomes of a call *)

Inductive result (A : Type) : Type :=
  | Ok (a : A)
  | Throw        (* a [cv::Exception] raised by a failed [CV_Assert] *)
  | Undefined.   (* a pixel access outside the allocation *)
Arguments Ok {A} a.
Arguments Throw {A}.
Arguments Undefined {A}.

#[global] Instance result_ret : MRet result := λ A a, Ok a.
#[global] Instance result_bind : MBind result := λ A B f m,
  match m with
  | Ok a => f a
  | Throw => Throw
  | Undefined => Undefined
  end.

(** ** Data model *)

(** One [CV_8UC3] pixel: the B, G and R bytes, each an integer from 0 to
    255.  The program moves pixels around and takes the maximum of their
    bytes; it does no other arithmetic on them. *)
Definition Vec3b : Type := Z * Z * Z.

Abbreviation Grid A := (list (list A)).

(** The store: every allocation holds a row-major pixel buffer. *)
Abbreviation heap := (list (Grid Vec3b)).

Record Point := mkPoint { pt_x : Z; pt_y : Z }.

Record Point2d := mkPoint2d { d_x : spec_float; d_y : spec_float }.

Record Range := mkRange { r_start : Z; r_end : Z }.

(** A [cv::Mat] header.  [data = None] is the default-constructed [Mat()]. *)
Record Mat := mkMat {
  data : option nat;
  offy : nat;
  offx : nat;
  rows : Z;
  cols : Z
}.

Definition Mat_default : Mat := mkMat None 0 0 0 0.

(** [Mat::empty()]: [data == 0 || total() == 0]. *)
Definition Mat_empty (m : Mat) : bool :=
  match data m with
  | None => true
  | Some _ => rows m * cols m =? 0
  end.

(** Reading pixel [(y, x)] of a header; [None] when the address falls
    outside the allocation. *)
Definition Mat_at (h : heap) (m : Mat) (y x : nat) : option Vec3b :=
  a ← data m;
  buf ← h !! a;
  row ← buf !! (offy m + y)%nat;
  row !! (offx m + x)%nat.

(** All pixels of a header, row by row. *)
Definition contents (h : heap) (m : Mat) : option (Grid Vec3b) :=
  mapM (λ y, mapM (λ x, Mat_at h m y x) (seq 0 (Z.to_nat (cols m))))
       (seq 0 (Z.to_nat (rows m))).

(** [Mat::operator()(Range rowRange, Range colRange)]: a view sharing the
    allocation, guarded by
    [CV_Assert(0 <= start && start <= end && end <= size)] on each axis. *)
Definition Mat_roi (m : Mat) (rowRange colRange : Range) : result Mat :=
  if (0 <=? r_start rowRange) && (r_start rowRange <=? r_end rowRange)
     && (r_end rowRange <=? rows m)
     && (0 <=? r_start colRange) && (r_start colRange <=? r_end colRange)
     && (r_end colRange <=? cols m)
  then Ok {| data := data m;
             offy := offy m + Z.to_nat (r_start rowRange);
             offx := offx m + Z.to_nat (r_start colRange);
             rows := r_end rowRange - r_start rowRange;
             cols := r_end colRange - r_start colRange |}
  else Throw.

(** [Mat::clone()]: a fresh allocation holding a copy of the pixels; the
    clone of an empty matrix is [Mat()]. *)
Definition clone (m : Mat) (h : heap) : result (Mat * heap) :=
  if Mat_empty m then Ok (Mat_default, h)
  else match contents h m with
       | None => Undefined
       | Some px =>
           Ok ({| data := Some (length h); offy := 0; offx := 0;
                  rows := rows m; cols := cols m |}, h ++ [px])
       end.

(** ** Numbers: int and double *)

(** The value a 32-bit two's-complement register holds for [z]. *)
Definition wrap (z : Z) : Z := (z + 2 ^ 31) mod 2 ^ 32 - 2 ^ 31.

(** [z] is a value of [int]. *)
Definition in_int (z : Z) : bool := (- 2 ^ 31 <=? z) && (z <? 2 ^ 31).

(** [a + b] and [a - b] on [int]. *)
Definition int_add (a b : Z) : Z := wrap (a + b).
Definition int_sub (a b : Z) : Z := wrap (a - b).

Definition binary64_add := SFadd 53 1024.
Definition binary64_mul := SFmul 53 1024.
Definition binary64_div := SFdiv 53 1024.

(** Conversion of an [int] to [double]. *)
Definition int_to_double (n : Z) : spec_float :=
  binary_normalize 53 1024 n 0 false.

(** The integer part of a finite [double]: truncation toward zero. *)
Definition truncate (f : spec_float) : option Z :=
  match f with
  | S754_zero _ => Some 0
  | S754_finite s m e =>
      Some (cond_Zopp s (match e with
                         | Zneg p => Z.pos m / 2 ^ Z.pos p
                         | _ => Z.pos m * 2 ^ e
                         end))
  | _ => None
  end.

(** [static_cast<int>] of a [double]: the integer part when it fits an
    [int]; [INT_MIN] for every other operand (an integer part out of
    range, an infinity, a NaN). *)
Definition double_to_int (f : spec_float) : Z :=
  match truncate f with
  | Some z => if in_int z then z else - 2 ^ 31
  | None => - 2 ^ 31
  end.

(** The literals of the source; [0.7071] is the binary64 number nearest
    to 7071/10000. *)
Definition lit_1 : spec_float := int_to_double 1.
Definition lit_0 : spec_float := int_to_double 0.
Definition lit_m1 : spec_float := int_to_double (-1).
Definition lit_2 : spec_float := int_to_double 2.
Definition lit_255 : spec_float := int_to_double 255.
Definition lit_0_7071 : spec_float :=
  binary64_div (int_to_double 7071) (int_to_double 10000).

(** ** The kernels of OpenCV used by the scorer *)

(** [cvtColor(.., COLOR_BGR2HSV)], [split] and the choice of
    [channels[2]]: for 8-bit input the V plane is [max(B, G, R)]. *)
Definition hsv_value (px : Vec3b) : Z :=
  let '(b, g, r) := px in Z.max b (Z.max g r).

Definition valueChannel (px : Grid Vec3b) : Grid Z :=
  (λ row : list Vec3b, hsv_value <$> row) <$> px.

(** The three floating-point kernels.  The source fixes the arguments
    they are called with; how their [CV_32F] arithmetic is rounded
    (whether the scale is folded into the aperture, in which order the
    taps and the squares are accumulated, whether multiply and add are
    fused) is decided inside OpenCV.
    - [Laplacian_px src ksize scale delta] is the result of
      [cv::Laplacian(src, dst, CV_32F, ksize, scale, delta,
      BORDER_DEFAULT)] on an 8-bit plane;
    - [pow_px src power] is the result of [cv::pow(src, power, dst)];
    - [sum_px src] is [cv::sum(src)[0]]. *)
Class Imgproc := {
  Laplacian_px : Grid Z → Z → spec_float → spec_float → Grid spec_float;
  pow_px : Grid spec_float → spec_float → Grid spec_float;
  sum_px : Grid spec_float → spec_float
}.

(** ** computePatchVariance *)

(** [1.0 / (255.0 * 3 * 2)]. *)
Definition laplacianScale : spec_float :=
  binary64_div lit_1
    (binary64_mul (binary64_mul lit_255 (int_to_double 3)) (int_to_double 2)).

(** The score of a patch with pixels [px]. *)
Definition patchVariance `{Imgproc} (px : Grid Vec3b) : spec_float :=
  let lap := Laplacian_px (valueChannel px) 3 laplacianScale lit_0 in
  let lap2 := pow_px lap lit_2 in
  sum_px lap2.

(** [cvtColor] starts with [CV_Assert(!_src.empty())]; the patches the
    program scores are views of a [CV_8UC3] image, which [cvtColor]
    accepts. *)
Definition computePatchVariance `{Imgproc} (h : heap) (patch : Mat)
    : result spec_float :=
  if Mat_empty patch then Throw
  else match contents h patch with
       | None => Undefined
       | Some px => Ok (patchVariance px)
       end.

(** ** selectBestPatch *)

Definition dir_E : Point2d := mkPoint2d lit_1 lit_0.
Definition dir_SE : Point2d := mkPoint2d lit_0_7071 lit_0_7071.
Definition dir_S : Point2d := mkPoint2d lit_0 lit_1.
Definition dir_SW : Point2d := mkPoint2d (SFopp lit_0_7071) lit_0_7071.
Definition dir_W : Point2d := mkPoint2d lit_m1 lit_0.
Definition dir_NW : Point2d := mkPoint2d (SFopp lit_0_7071) (SFopp lit_0_7071).
Definition dir_N : Point2d := mkPoint2d lit_0 lit_m1.
Definition dir_NE : Point2d := mkPoint2d lit_0_7071 (SFopp lit_0_7071).

(** [kDirs], in the order of the source (image coordinates: x grows to the
    right, y grows downwards). *)
Definition kDirs : list Point2d :=
  [dir_E; dir_SE; dir_S; dir_SW; dir_W; dir_NW; dir_N; dir_NE].

(** The [double] that is cast: [c + d * radius * 2]. *)
Definition offsetDouble (c : Z) (d : spec_float) (radius : Z) : spec_float :=
  binary64_add (int_to_double c)
    (binary64_mul (binary64_mul d (int_to_double radius)) (int_to_double 2)).

(** [static_cast<int>(c + d * radius * 2)]. *)
Definition offsetCoord (c : Z) (d : spec_float) (radius : Z) : Z :=
  double_to_int (offsetDouble c d radius).

Definition srcCenter (center : Point) (radius : Z) (d : Point2d) : Point :=
  mkPoint (offsetCoord (pt_x center) (d_x d) radius)
          (offsetCoord (pt_y center) (d_y d) radius).

Record Bounds := mkBounds { x0 : Z; y0 : Z; x1 : Z; y1 : Z }.

(** [x0 = srcCenter.x - radius], [x1 = srcCenter.x + radius + 1], and the
    same for [y]. *)
Definition patchBounds (c : Point) (radius : Z) : Bounds :=
  {| x0 := int_sub (pt_x c) radius;
     y0 := int_sub (pt_y c) radius;
     x1 := int_add (int_add (pt_x c) radius) 1;
     y1 := int_add (int_add (pt_y c) radius) 1 |}.

(** The guard [x0 < 0 || y0 < 0 || x1 > image.cols || y1 > image.rows]. *)
Definition outOfBounds (image : Mat) (b : Bounds) : bool :=
  (x0 b <? 0) || (y0 b <? 0) || (x1 b >? cols image) || (y1 b >? rows image).

(** The view [image(cv::Range(y0, y1), cv::Range(x0, x1))]. *)
Definition patchView (image : Mat) (b : Bounds) : result Mat :=
  Mat_roi image (mkRange (y0 b) (y1 b)) (mkRange (x0 b) (x1 b)).

(** The loop variables [bestPatch] and [minVariance]. *)
Record Search := mkSearch { bestPatch : Mat; minVariance : spec_float }.

(** [std::numeric_limits<double>::infinity()]. *)
Definition infinity : spec_float := S754_infinity false.

(** One iteration of the loop over [kDirs]; [var < minVariance] is the
    comparison of IEEE-754, false when an operand is a NaN. *)
Definition visit `{Imgproc} (image : Mat) (center : Point) (radius : Z)
    (acc : Search * heap) (d : Point2d) : result (Search * heap) :=
  let b := patchBounds (srcCenter center radius d) radius in
  if outOfBounds image b then Ok acc
  else
    patch ← patchView image b;
    var ← computePatchVariance acc.2 patch;
    if SFltb var (minVariance acc.1) then
      '(copy, h') ← clone patch acc.2;
      Ok (mkSearch copy var, h')
    else Ok acc.

Fixpoint scan `{Imgproc} (image : Mat) (center : Point) (radius : Z)
    (acc : Search * heap) (dirs : list Point2d) : result (Search * heap) :=
  match dirs with
  | [] => Ok acc
  | d :: dirs' =>
      acc' ← visit image center radius acc d;
      scan image center radius acc' dirs'
  end.

(** The function; [diameter = radius * 2 + 1] is computed at its head
    and not used. *)
Definition selectBestPatch `{Imgproc} (image : Mat) (center : Point)
    (radius : Z) (h : heap) : result (Mat * heap) :=
  '(s, h') ← scan image center radius (mkSearch Mat_default infinity, h) kDirs;
  Ok (bestPatch s, h').

(** The candidate of one direction, as the loop body sees it. *)
Definition candidate (center : Point) (radius : Z) (d : Point2d) : Bounds :=
  patchBounds (srcCenter center radius d) radius.

Definition inBounds (image : Mat) (center : Point) (radius : Z)
    (d : Point2d) : bool :=
  negb (outOfBounds image (candidate center radius d)).

Definition candidatePixels (h : heap) (image : Mat) (center : Point)
    (radius : Z) (d : Point2d) : option (Grid Vec3b) :=
  match patchView image (candidate center radius d) with
  | Ok v => contents h v
  | _ => None
  end.

(** ** Writing through a header: copyTo and seamlessClone *)

Definition write_row {A} (row : list A) (ox : nat) (new : list A) : list A :=
  take ox row ++ new ++ drop (ox + length new)%nat row.

Definition write_window {A} (buf : Grid A) (oy ox : nat) (new : Grid A)
    : Grid A :=
  take oy buf
  ++ zip_with (λ row n, write_row row ox n) (take (length new) (drop oy buf)) new
  ++ drop (oy + length new)%nat buf.

(** Overwriting the window of [m] with [px]; the window has to lie inside
    the allocation. *)
Definition Mat_write (m : Mat) (px : Grid Vec3b) (h : heap) : result heap :=
  match data m, contents h m with
  | Some a, Some _ =>
      match h !! a with
      | Some buf => Ok (<[a := write_window buf (offy m) (offx m) px]> h)
      | None => Undefined
      end
  | _, _ => Undefined
  end.

(** [dst.create(rows, cols, type)] followed by the write of [px]: the
    allocation of [dst] is kept when its size already matches, otherwise
    [dst] becomes a header over a fresh allocation. *)
Definition Mat_assign (dst : Mat) (nrows ncols : Z) (px : Grid Vec3b)
    (h : heap) : result (Mat * heap) :=
  if bool_decide (is_Some (data dst)) && (rows dst =? nrows) && (cols dst =? ncols)
  then h' ← Mat_write dst px h; Ok (dst, h')
  else Ok ({| data := Some (length h); offy := 0; offx := 0;
              rows := nrows; cols := ncols |}, h ++ [px]).

(** [src.copyTo(dst)]; an empty [src] releases [dst]. *)
Definition copyTo (src dst : Mat) (h : heap) : result (Mat * heap) :=
  if Mat_empty src then Ok (Mat_default, h)
  else match contents h src with
       | None => Undefined
       | Some px => Mat_assign dst (rows src) (cols src) px h
       end.

(** The two primitives of OpenCV whose pixel arithmetic the program
    never inspects.  [seamlessClone_px src dst mask p] is [None] when one
    of the primitive's assertions fails, and otherwise gives the blended
    value of every pixel of the destination. *)
Class Photo := {
  circle_px : Grid Z → Point → Z → Z → Grid Z;
  seamlessClone_px :
    Grid Vec3b → Grid Vec3b → Grid Z → Point → option (nat → nat → Vec3b)
}.

(** [cv::seamlessClone(src, dst, mask, p, blend, NORMAL_CLONE)]: [blend]
    is created with the size of [dst] and receives the blended pixels. *)
Definition seamlessClone `{Photo} (src dst : Mat) (mask : Grid Z) (p : Point)
    (blend : Mat) (h : heap) : result (Mat * heap) :=
  match contents h src, contents h dst with
  | Some spx, Some dpx =>
      match seamlessClone_px spx dpx mask p with
      | None => Throw
      | Some f =>
          Mat_assign blend (rows dst) (cols dst)
            (imap (λ y row, imap (λ x _, f y x) row) dpx) h
      end
  | _, _ => Undefined
  end.

(** ** onMouse and the loop of runBlemishRemoval *)

Definition kDefaultRad : Z := 20.
Definition EVENT_LBUTTONDOWN : Z := 1.

(** [cv::Mat::zeros(size, CV_8UC1)]. *)
Definition zeros (nrows ncols : Z) : Grid Z :=
  replicate (Z.to_nat nrows) (replicate (Z.to_nat ncols) 0).

(** The mouse callback; the state it works on is the global
    [g_sourceImage] and the store. *)
Definition onMouse `{Imgproc} `{Photo} (event x y : Z) (g_sourceImage : Mat)
    (h : heap) : result (Mat * heap) :=
  if negb (event =? EVENT_LBUTTONDOWN) then Ok (g_sourceImage, h)
  else
    let center := mkPoint x y in
    '(patch, h1) ← selectBestPatch g_sourceImage center kDefaultRad h;
    if Mat_empty patch then Ok (g_sourceImage, h1)
    else
      let mask := zeros (rows patch) (cols patch) in
      let mask :=
        circle_px mask (mkPoint kDefaultRad kDefaultRad) kDefaultRad 255 in
      seamlessClone patch g_sourceImage mask center g_sourceImage h1.

(** What reaches the program while the window is open: a mouse event
    dispatched to the callback, or the return of one [cv::waitKey(20)]
    ([-1] when no key was pressed). *)
Inductive Event :=
  | MouseEvent (event x y : Z)
  | WaitKey (ret : Z).

Record Session := mkSession {
  g_sourceImage : Mat;
  original : Mat;
  store : heap
}.

Inductive Status :=
  | Looping (s : Session)
  | Returned (s : Session).

Definition key_Esc : Z := 27.
Definition key_c : Z := 99.
Definition key_C : Z := 67.

Definition loop_step `{Imgproc} `{Photo} (s : Session) (e : Event)
    : result Status :=
  match e with
  | MouseEvent event x y =>
      '(g, h) ← onMouse event x y (g_sourceImage s) (store s);
      Ok (Looping (mkSession g (original s) h))
  | WaitKey ret =>
      let key := Z.land ret 255 in
      if key =? key_Esc then Ok (Returned s)
      else if (key =? key_c) || (key =? key_C) then
        '(g, h) ← copyTo (original s) (g_sourceImage s) (store s);
        Ok (Looping (mkSession g (original s) h))
      else Ok (Looping s)
  end.

Fixpoint loop `{Imgproc} `{Photo} (s : Session) (events : list Event)
    : result Status :=
  match events with
  | [] => Ok (Looping s)
  | e :: events' =>
      st ← loop_step s e;
      match st with
      | Looping s' => loop s' events'
      | Returned s' => Ok (Returned s')
      end
  end.

Definition runBlemishRemoval `{Imgproc} `{Photo} (image : Mat) (h : heap)
    (events : list Event) : result Status :=
  '(g, h1) ← clone image h;
  '(orig, h2) ← clone image h1;
  loop (mkSession g orig h2) events.

(** ** Loading, saving and main *)

Definition EXIT_SUCCESS : Z := 0.
Definition EXIT_FAILURE : Z := 1.
Definition IMREAD_UNCHANGED : Z := -1.
Definition IMREAD_COLOR : Z := 1.

Definition kInputRelative : string := "../data/blemish.png"%string.
Definition kOutputRelative : string := "../data/result.png"%string.

(** What the program needs from the file system and the codecs, none of
    which is in the source: the value of [DATA_DIR], the [operator/] of
    [std::filesystem::path], the pixels [cv::imread] decodes ([None] when
    the file cannot be read), and whether [cv::imwrite] manages to write
    ([None] when it throws). *)
Class Imgcodecs := {
  kDataDir : string;
  path_append : string → string → string;
  imread_px : string → Z → option (nat * nat * (nat → nat → Vec3b));
  imwrite_px : string → Grid Vec3b → option bool
}.

(** The files written so far. *)
Abbreviation Disk := (list (string * Grid Vec3b)).

(** The grid of [r] rows and [c] columns with [f y x] at row [y], column
    [x]. *)
Definition tabulate (r c : nat) (f : nat → nat → Vec3b) : Grid Vec3b :=
  (λ y, (λ x, f y x) <$> seq 0 c) <$> seq 0 r.

(** [cv::imread]: a matrix over a fresh allocation, or [Mat()]. *)
Definition imread `{Imgcodecs} (path : string) (flags : Z) (h : heap)
    : Mat * heap :=
  match imread_px path flags with
  | None => (Mat_default, h)
  | Some (r, c, f) =>
      (mkMat (Some (length h)) 0 0 (Z.of_nat r) (Z.of_nat c),
       h ++ [tabulate r c f])
  end.

(** [cv::imwrite], which starts with [CV_Assert(!_img.empty())]. *)
Definition imwrite `{Imgcodecs} (path : string) (image : Mat) (h : heap)
    (disk : Disk) : result (bool * Disk) :=
  if Mat_empty image then Throw
  else match contents h image with
       | None => Undefined
       | Some px =>
           match imwrite_px path px with
           | Some true => Ok (true, disk ++ [(path, px)])
           | Some false => Ok (false, disk)
           | None => Throw
           end
       end.

(** The outcome of a function that may call [std::exit]. *)
Inductive exit_or (A : Type) : Type :=
  | Returns (a : A)
  | Exits (code : Z).
Arguments Returns {A} a.
Arguments Exits {A} code.

Definition loadImageOrExit `{Imgcodecs} (path : string) (flags : Z)
    (h : heap) : exit_or (Mat * heap) :=
  let '(img, h') := imread path flags h in
  if Mat_empty img then Exits EXIT_FAILURE
  else Returns (img, h').

Definition saveImageOrExit `{Imgcodecs} (path : string) (image : Mat)
    (h : heap) (disk : Disk) : result (exit_or Disk) :=
  '(written, disk') ← imwrite path image h disk;
  if negb written then Ok (Exits EXIT_FAILURE)
  else Ok (Returns disk').

(** Where [main] stands once the events are used up: still in the loop,
    or terminated with an exit code and the files it wrote. *)
Inductive Program :=
  | InLoop (s : Session)
  | Terminated (code : Z) (disk : Disk).

Definition main `{Imgproc} `{Photo} `{Imgcodecs} (events : list Event)
    : result Program :=
  let inputImagePath := path_append kDataDir kInputRelative in
  match loadImageOrExit inputImagePath IMREAD_COLOR [] with
  | Exits code => Ok (Terminated code [])
  | Returns (input, h) =>
      st ← runBlemishRemoval input h events;
      match st with
      | Looping s => Ok (InLoop s)
      | Returned s =>
          let outputImagePath := path_append kDataDir kOutputRelative in
          r ← saveImageOrExit outputImagePath (g_sourceImage s) (store s) [];
          match r with
          | Exits code => Ok (Terminated code [])
          | Returns disk => Ok (Terminated EXIT_SUCCESS disk)
          end
      end
  end.

(** ** Notions used by the statements *)

(** A header is valid in a store when its dimensions are not negative and
    every pixel of its window can be read. *)
Definition valid (h : heap) (m : Mat) : Prop :=
  0 ≤ rows m ∧ 0 ≤ cols m ∧ is_Some (contents h m).

(** The header [clone] returns for [m]: the next free allocation. *)
Definition fresh (h : heap) (m : Mat) : Mat :=
  {| data := Some (length h); offy := 0; offx := 0;
     rows := rows m; cols := cols m |}.

(** A grid of [R] rows of [C] elements. *)
Definition shape {A} (R C : nat) (g : Grid A) : Prop :=
  length g = R ∧ ∀ row, row ∈ g → length row = C.

(** A [double] that is a number: neither an infinity nor a NaN. *)
Definition is_finite (f : spec_float) : bool :=
  match f with
  | S754_zero _ | S754_finite _ _ _ => true
  | _ => false
  end.

(** [static_cast<int>(f)] has a defined result: [f] is finite and its
    integer part fits an [int]. *)
Definition cast_defined (f : spec_float) : bool :=
  match truncate f with
  | Some z => in_int z
  | None => false
  end.

(** The candidate of direction [d] is computed inside [int]: the operands
    are [int] values, [diameter = radius * 2 + 1] does not overflow, the
    two casts have a defined result, and no addition or subtraction of the
    four bounds overflows. *)
Definition no_overflow (center : Point) (radius : Z) (d : Point2d) : bool :=
  let c := srcCenter center radius d in
  in_int (pt_x center) && in_int (pt_y center) && in_int radius
  && in_int (radius * 2) && in_int (radius * 2 + 1)
  && cast_defined (offsetDouble (pt_x center) (d_x d) radius)
  && cast_defined (offsetDouble (pt_y center) (d_y d) radius)
  && in_int (pt_x c - radius) && in_int (pt_x c + radius)
  && in_int (pt_x c + radius + 1)
  && in_int (pt_y c - radius) && in_int (pt_y c + radius)
  && in_int (pt_y c + radius + 1).

(** The candidate arithmetic of a click at [(x, y)] leaves [int] for one of
    the eight directions. *)
Definition overflows (x y : Z) : Prop :=
  ∃ d, d ∈ kDirs ∧ no_overflow (mkPoint x y) kDefaultRad d = false.

(** A click at least [3 * kDefaultRad + 1] away from both ends of the
    range of [int], in each coordinate. *)
Definition click_in_range (x y : Z) : Prop :=
  - 2 ^ 31 + (3 * kDefaultRad + 1) ≤ x < 2 ^ 31 - (3 * kDefaultRad + 1) ∧
  - 2 ^ 31 + (3 * kDefaultRad + 1) ≤ y < 2 ^ 31 - (3 * kDefaultRad + 1).

(** Every candidate of [dirs] inside the image scores a finite number. *)
Definition finite_scores `{Imgproc} (h : heap) (image : Mat) (center : Point)
    (radius : Z) (dirs : list Point2d) : Prop :=
  ∀ d px, d ∈ dirs → candidatePixels h image center radius d = Some px →
          is_finite (patchVariance px) = true.

(** [d], with pixels [px], is the first direction of [order] whose
    candidate has the minimal score: it scores strictly below the
    candidates before it and not above those after it. *)
Definition firstMinimalIn `{Imgproc} (h : heap) (image : Mat) (center : Point)
    (radius : Z) (order : list Point2d) (d : Point2d) (px : Grid Vec3b) : Prop :=
  ∃ pre post,
    order = pre ++ d :: post ∧
    candidatePixels h image center radius d = Some px ∧
    (∀ d' px', d' ∈ pre → candidatePixels h image center radius d' = Some px' →
               SFltb (patchVariance px) (patchVariance px') = true) ∧
    (∀ d' px', d' ∈ post → candidatePixels h image center radius d' = Some px' →
               SFleb (patchVariance px) (patchVariance px') = true).

(** The enumeration order the specification gives: N, NE, E, SE, S, SW,
    W, NW. *)
Definition specOrder : list Point2d :=
  [dir_N; dir_NE; dir_E; dir_SE; dir_S; dir_SW; dir_W; dir_NW].

(** The range of a 32-bit [int]. *)
Definition int_range (z : Z) : Prop := - 2 ^ 31 ≤ z < 2 ^ 31.



(** What holds of a session while the loop runs: [original] still has the
    pixels [px] it was cloned with, and [g_sourceImage] is a readable
    header of the same size over another allocation. *)
Definition session_inv (px : Grid Vec3b) (s : Session) : Prop :=
  contents (store s) (original s) = Some px ∧
  is_Some (contents (store s) (g_sourceImage s)) ∧
  (∃ ag ao, data (g_sourceImage s) = Some ag ∧
            data (original s) = Some ao ∧ ag ≠ ao) ∧
  rows (g_sourceImage s) = rows (original s) ∧
  cols (g_sourceImage s) = cols (original s) ∧
  0 < rows (original s) ∧ 0 < cols (original s).

(** The normalised binary64 number of sign [s] and magnitude [n], for an
    [n] of at most 53 bits. *)
Definition canon (s : bool) (n : positive) : spec_float :=
  S754_finite s (Z.to_pos (Z.pos n * 2 ^ (53 - Z.pos (digits2_pos n))))
              (Z.pos (digits2_pos n) - 53).

(** The binary64 number that holds the integer [z]. *)
Definition Zfloat (z : Z) : spec_float :=
  match z with
  | Z0 => S754_zero false
  | Z.pos p => canon false p
  | Z.neg p => canon true p
  end.

(** [f] holds the integer [z] (a zero of either sign holds 0). *)
Definition holds (f : spec_float) (z : Z) : Prop :=
  f = Zfloat z ∨ (z = 0 ∧ f = S754_zero true).

(** The value of a finite [double] in units of [2 ^ (- K)]: an integer as
    soon as the exponent is at least [- K], which [fin K] says. *)
Definition scaled (K : Z) (f : spec_float) : Z :=
  match f with
  | S754_finite s m e => cond_Zopp s (Z.pos m) * 2 ^ (e + K)
  | _ => 0
  end.

Definition fin (K : Z) (f : spec_float) : Prop :=
  match f with
  | S754_zero _ => True
  | S754_finite _ _ e => 0 ≤ e + K
  | _ => False
  end.

(** ** Notions used by the statements on the loop *)

(** A left-button press. *)
Definition is_click (e : Event) : bool :=
  match e with
  | MouseEvent event _ _ => event =? EVENT_LBUTTONDOWN
  | WaitKey _ => false
  end.

(** The events the program reacts to: a left-button press, and the keys
    Esc, 'c' and 'C'. *)
Definition relevant (e : Event) : bool :=
  match e with
  | MouseEvent event _ _ => event =? EVENT_LBUTTONDOWN
  | WaitKey ret =>
      let key := Z.land ret 255 in
      (key =? key_Esc) || (key =? key_c) || (key =? key_C)
  end.

Definition session_of (st : Status) : Session :=
  match st with
  | Looping s => s
  | Returned s => s
  end.

(** The session [runBlemishRemoval] enters its loop with, for an image
    of pixels [px]: two clones, allocated one after the other. *)
Definition start_session (h : heap) (image : Mat) (px : Grid Vec3b) : Session :=
  mkSession (fresh h image) (fresh (h ++ [px]) image) ((h ++ [px]) ++ [px]).

(** Every allocation of [h0] other than [ag] is found unchanged in [h]. *)
Definition untouched (ag : nat) (h0 h : heap) : Prop :=
  ∀ a buf, a ≠ ag → h0 !! a = Some buf → h !! a = Some buf.

(** ** Example data *)

(** A stand-in for the three kernels, to run the model on examples.  It
    follows the plain loop of [filter2D]: the aperture of [ksize == 3],
    scaled once and rounded to binary32, is applied with
    [BORDER_REFLECT_101]; the non-zero taps are accumulated from [delta]
    in row-major order with a binary32 multiplication and a binary32
    addition each; [pow] squares in binary32 and [sum] accumulates in
    binary64, row by row. *)
Definition binary32_add := SFadd 24 128.
Definition binary32_mul := SFmul 24 128.

Definition to_float (f : spec_float) : spec_float :=
  match f with
  | S754_finite s m e => binary_round 24 128 s m e
  | _ => f
  end.

Definition uchar_to_float (z : Z) : spec_float :=
  binary_normalize 24 128 z 0 false.

(** [borderInterpolate(p, len, BORDER_REFLECT_101)] for the positions an
    aperture of size 3 can ask for ([-1 <= p <= len]). *)
Definition borderInterpolate (p len : Z) : Z :=
  if (0 <=? p) && (p <? len) then p
  else if len =? 1 then 0
  else if p <? 0 then - p
  else 2 * len - p - 2.

Definition at_reflect (src : Grid Z) (y x : Z) : Z :=
  let nrows := Z.of_nat (length src) in
  let ncols := Z.of_nat (length (default [] (head src))) in
  default 0 (row ← src !! Z.to_nat (borderInterpolate y nrows);
             row !! Z.to_nat (borderInterpolate x ncols)).

(** The aperture of [cv::Laplacian] for [ksize == 3]. *)
Definition laplacianKernel3 : Grid Z := [[2; 0; 2]; [0; -8; 0]; [2; 0; 2]].

Definition filter2D_at (kernel : Grid spec_float) (delta : spec_float)
    (src : Grid Z) (y x : Z) : spec_float :=
  foldl (λ acc '(i, krow),
           foldl (λ acc '(j, k),
                    match k with
                    | S754_zero _ => acc
                    | _ => binary32_add acc
                             (binary32_mul k
                                (uchar_to_float
                                   (at_reflect src (y + i - 1) (x + j - 1))))
                    end)
                 acc (zip [0; 1; 2] krow))
        (to_float delta) (zip [0; 1; 2] kernel).

Definition ref32 : Imgproc := {|
  Laplacian_px := λ src ksize scale delta,
    let kernel :=
      (λ row : list Z,
         (λ k, to_float (binary64_mul (int_to_double k) scale)) <$> row)
      <$> laplacianKernel3 in
    imap (λ y row,
            imap (λ x _, filter2D_at kernel delta src (Z.of_nat y) (Z.of_nat x))
                 row)
         src;
  pow_px := λ src power,
    (λ row : list spec_float, (λ v, binary32_mul v v) <$> row) <$> src;
  sum_px := λ src, foldl binary64_add (S754_zero false) (concat src)
|}.

(** A 7x7 image whose V plane is uniform (100) and whose pixel at row 3,
    column 5 differs from the others in its B byte only. *)
Definition cx_px0 : Vec3b := (0, 0, 100).
Definition cx_px1 : Vec3b := (50, 0, 100).
Definition cx_grid : Grid Vec3b :=
  <[3%nat := <[5%nat := cx_px1]> (replicate 7 cx_px0)]>
    (replicate 7 (replicate 7 cx_px0)).
Definition cx_store : heap := [cx_grid].
Definition cx_image : Mat := mkMat (Some 0%nat) 0 0 7 7.
Definition cx_center : Point := mkPoint 3 3.

(** A stand-in for the two primitives, to run the model on examples: the
    circle is the Euclidean disc and the blend pastes the masked pixels of
    the source centred on [p]. *)
Definition paste : Photo := {|
  circle_px := λ mask c r v,
    imap (λ y row,
            imap (λ x old,
                    if (Z.of_nat x - pt_x c) ^ 2 + (Z.of_nat y - pt_y c) ^ 2
                       <=? r ^ 2
                    then v else old) row) mask;
  seamlessClone_px := λ src dst mask p,
    Some (λ y x,
            let sy := Z.of_nat y - (pt_y p - Z.of_nat (length src) / 2) in
            let sx := Z.of_nat x
                      - (pt_x p - Z.of_nat (length (default [] (head src))) / 2) in
            let from_dst := default (0, 0, 0) (row ← dst !! y; row !! x) in
            if (0 <=? sy) && (0 <=? sx)
            then match row ← mask !! Z.to_nat sy; row !! Z.to_nat sx with
                 | Some m =>
                     if m =? 0 then from_dst
                     else default from_dst
                            (row ← src !! Z.to_nat sy; row !! Z.to_nat sx)
                 | None => from_dst
                 end
            else from_dst)
|}.

(** A 61x41 image, uniform but for one dark pixel at (60, 20), and a
    session on it: a click on the dark pixel, an idle [waitKey], and a
    mouse move. *)
Definition ex_grid : Grid Vec3b :=
  <[20%nat := <[60%nat := (10, 10, 10)]> (replicate 61 (200, 180, 160))]>
    (replicate 41 (replicate 61 (200, 180, 160))).
Definition ex_store : heap := [ex_grid].
Definition ex_image : Mat := mkMat (Some 0%nat) 0 0 41 61.
Definition ex_events : list Event :=
  [MouseEvent EVENT_LBUTTONDOWN 60 20; WaitKey (-1); MouseEvent 0 3 3].

(** A file system that holds the 7x7 image [cx_grid] at the input path
    and accepts every write. *)
Definition ex_codecs : Imgcodecs := {|
  kDataDir := "/srv"%string;
  path_append := λ p q, (p ++ "/" ++ q)%string;
  imread_px := λ path flags,
    if String.eqb path "/srv/../data/blemish.png"%string
    then Some (7%nat, 7%nat,
               λ y x, if Nat.eqb y 3 && Nat.eqb x 5 then cx_px1 else cx_px0)
    else None;
  imwrite_px := λ _ _, Some true
|}.

(** A second stand-in for the primitives, which rejects a centre whose
    patch would leave the destination. *)
Definition strict : Photo := {|
  circle_px := @circle_px paste;
  seamlessClone_px := λ src dst mask p,
    let r := Z.of_nat (length src) / 2 in
    if (r <=? pt_x p)
       && (pt_x p + r <? Z.of_nat (length (default [] (head dst))))
       && (r <=? pt_y p) && (pt_y p + r <? Z.of_nat (length dst))
    then @seamlessClone_px paste src dst mask p
    else None
|}.

(** * Proofs *)

(** Validity of a concrete header in a concrete store, by evaluation. *)
Ltac valid_by_compute :=
  split; [simpl; lia|split; [simpl; lia|vm_compute; by eexists]].

(** ** Exactness of binary64 arithmetic on small integers *)

Lemma digits2_pos_log2 (p : positive) :
  Z.pos (digits2_pos p) = Z.log2 (Z.pos p) + 1.
Proof.
  assert (Hsize : digits2_pos p = Pos.size p) by (induction p; simpl; congruence).
  rewrite Hsize. destruct p; simpl; lia.
Qed.

Lemma Zdigits2_mul_pow2 (n : positive) (j : Z) :
  0 ≤ j → Zdigits2 (Z.pos n * 2 ^ j) = Z.pos (digits2_pos n) + j.
Proof.
  intros Hj.
  assert (Hpos : 0 < Z.pos n * 2 ^ j) by (apply Z.mul_pos_pos; lia).
  destruct (Z.pos n * 2 ^ j) as [|m|m] eqn:Hm; [lia| |lia].
  cbn [Zdigits2]. rewrite !digits2_pos_log2, <- Hm.
  rewrite Z.log2_mul_pow2 by lia. lia.
Qed.

Lemma shr_1_double (z : Z) :
  0 ≤ z →
  shr_1 (Build_shr_record (2 * z) false false) = Build_shr_record z false false.
Proof. intros Hz. destruct z as [|p|p]; [done|done|lia]. Qed.

Lemma iter_pos_shr_1 (p : positive) : ∀ z,
  0 ≤ z →
  SpecFloat.iter_pos shr_1 p (Build_shr_record (z * 2 ^ Z.pos p) false false)
  = Build_shr_record z false false.
Proof.
  induction p as [p IH|p IH|]; intros z Hz; cbn [SpecFloat.iter_pos].
  - replace (z * 2 ^ Z.pos p~1) with (2 * ((z * 2 ^ Z.pos p) * 2 ^ Z.pos p)).
    + rewrite shr_1_double by (apply Z.mul_nonneg_nonneg; lia).
      rewrite IH by lia. by apply IH.
    + replace (Z.pos p~1) with (Z.pos p + Z.pos p + 1) by lia.
      rewrite !Z.pow_add_r, Z.pow_1_r by lia. ring.
  - replace (z * 2 ^ Z.pos p~0) with ((z * 2 ^ Z.pos p) * 2 ^ Z.pos p).
    + rewrite IH by lia. by apply IH.
    + replace (Z.pos p~0) with (Z.pos p + Z.pos p) by lia.
      rewrite !Z.pow_add_r by lia. ring.
  - rewrite Z.pow_1_r, Z.mul_comm. by apply shr_1_double.
Qed.

Lemma shr_exact (z e k : Z) :
  0 ≤ z → 0 ≤ k →
  shr (Build_shr_record (z * 2 ^ k) false false) e k
  = (Build_shr_record z false false, e + k).
Proof.
  intros Hz Hk. destruct k as [|p|p]; [| |lia].
  - cbn [shr]. by rewrite Z.pow_0_r, Z.mul_1_r, Z.add_0_r.
  - cbn [shr]. by rewrite iter_pos_shr_1.
Qed.

Lemma binary_round_aux_exact (s : bool) (n : positive) (j : Z) :
  Z.pos (digits2_pos n) ≤ 53 → 53 - Z.pos (digits2_pos n) ≤ j →
  binary_round_aux 53 1024 s (Z.pos n * 2 ^ j) (- j) loc_Exact = canon s n.
Proof.
  intros HD Hj. set (D := Z.pos (digits2_pos n)) in *.
  assert (HD1 : 1 ≤ D) by (unfold D; lia).
  unfold binary_round_aux, shr_fexp.
  rewrite Zdigits2_mul_pow2 by lia. fold D.
  unfold fexp, emin.
  replace (Z.max (D + j + - j - 53) (3 - 1024 - 53) - - j)
    with (D - 53 + j) by lia.
  cbn [shr_record_of_loc].
  replace (Z.pos n * 2 ^ j)
    with ((Z.pos n * 2 ^ (53 - D)) * 2 ^ (D - 53 + j)).
  2:{ rewrite <- Z.mul_assoc, <- Z.pow_add_r by lia. do 2 f_equal. lia. }
  assert (Hm : 0 < Z.pos n * 2 ^ (53 - D)) by (apply Z.mul_pos_pos; lia).
  rewrite shr_exact by lia.
  cbn [shr_m loc_of_shr_record round_nearest_even].
  rewrite Zdigits2_mul_pow2 by lia. fold D.
  replace (Z.max (D + (53 - D) + (- j + (D - 53 + j)) - 53) (3 - 1024 - 53)
           - (- j + (D - 53 + j))) with 0 by lia.
  cbn [shr shr_m].
  destruct (Z.pos n * 2 ^ (53 - D)) as [|m|m] eqn:Hmm; [lia| |lia].
  replace (- j + (D - 53 + j)) with (D - 53) by lia.
  destruct (Z.leb_spec (D - 53) (1024 - 53)); [|lia].
  unfold canon. fold D. by rewrite Hmm.
Qed.

Lemma Pos_iter_xO (m d : positive) :
  Z.pos (Pos.iter xO m d) = Z.pos m * 2 ^ Z.pos d.
Proof.
  induction d as [|d IH] using Pos.peano_ind.
  - simpl. lia.
  - rewrite Pos.iter_succ, Pos2Z.inj_xO, IH, Pos2Z.inj_succ, Z.pow_succ_r by lia.
    ring.
Qed.

Lemma shl_align_fst (m : positive) (e e' : Z) :
  e' ≤ e → Z.pos (shl_align m e e').1 = Z.pos m * 2 ^ (e - e').
Proof.
  intros He. unfold shl_align.
  destruct (e' - e) as [|d|d] eqn:Hd; cbn [fst].
  - replace (e - e') with 0 by lia. lia.
  - lia.
  - rewrite Pos_iter_xO. do 2 f_equal. lia.
Qed.

Lemma binary_round_exact (s : bool) (n m : positive) (j : Z) :
  Z.pos (digits2_pos n) ≤ 53 → 0 ≤ j → Z.pos m = Z.pos n * 2 ^ j →
  binary_round 53 1024 s m (- j) = canon s n.
Proof.
  intros HD Hj Hm. set (D := Z.pos (digits2_pos n)) in *.
  assert (HD1 : 1 ≤ D) by (unfold D; lia).
  unfold binary_round.
  assert (Hdig : Z.pos (digits2_pos m) = D + j).
  { change (Z.pos (digits2_pos m)) with (Zdigits2 (Z.pos m)).
    rewrite Hm. by apply Zdigits2_mul_pow2. }
  rewrite Hdig. unfold fexp, emin.
  replace (Z.max (D + j + - j - 53) (3 - 1024 - 53)) with (D - 53) by lia.
  unfold shl_align.
  destruct (D - 53 - - j) as [|d|d] eqn:Hd.
  - rewrite Hm. apply binary_round_aux_exact; fold D; lia.
  - rewrite Hm. apply binary_round_aux_exact; fold D; lia.
  - rewrite Pos_iter_xO, Hm.
    replace (D - 53) with (- (53 - D)) by lia.
    replace (Z.pos n * 2 ^ j * 2 ^ Z.pos d) with (Z.pos n * 2 ^ (53 - D)).
    + apply binary_round_aux_exact; fold D; lia.
    + rewrite <- Z.mul_assoc, <- Z.pow_add_r by lia. do 2 f_equal. lia.
Qed.

Lemma digits_bound (p : positive) (k : Z) :
  0 ≤ k → Z.pos p < 2 ^ k → Z.pos (digits2_pos p) ≤ k.
Proof.
  intros Hk Hp. rewrite digits2_pos_log2.
  enough (Z.log2 (Z.pos p) < k) by lia.
  apply Z.log2_lt_pow2; lia.
Qed.

Lemma int_to_double_Zfloat (z : Z) :
  Z.abs z < 2 ^ 53 → int_to_double z = Zfloat z.
Proof.
  intros Hz. unfold int_to_double, binary_normalize.
  destruct z as [|p|p]; [done| |];
    (apply (binary_round_exact _ p p 0);
     [apply digits_bound; lia|lia|lia]).
Qed.

Lemma in_int_range (z : Z) : in_int z = true ↔ int_range z.
Proof. unfold in_int, int_range. rewrite andb_true_iff, Z.leb_le, Z.ltb_lt. lia. Qed.

Lemma wrap_int (z : Z) : int_range z → wrap z = z.
Proof.
  unfold int_range, wrap. intros Hz.
  rewrite Z.mod_small by lia. lia.
Qed.

Lemma wrap_range (z : Z) : int_range (wrap z).
Proof.
  unfold int_range, wrap.
  pose proof (Z.mod_pos_bound (z + 2 ^ 31) (2 ^ 32) ltac:(lia)). lia.
Qed.

Lemma truncate_canon (s : bool) (n : positive) :
  Z.pos (digits2_pos n) ≤ 53 →
  truncate (canon s n) = Some (cond_Zopp s (Z.pos n)).
Proof.
  intros HD. unfold canon, truncate.
  set (D := Z.pos (digits2_pos n)) in *.
  assert (HD1 : 1 ≤ D) by (unfold D; lia).
  assert (Hm : 0 < Z.pos n * 2 ^ (53 - D)) by (apply Z.mul_pos_pos; lia).
  do 2 f_equal. rewrite Z2Pos.id by done.
  destruct (D - 53) as [|e|e] eqn:He; [| lia |].
  - replace (53 - D) with 0 by lia. lia.
  - replace (53 - D) with (Z.pos e) by lia.
    apply Z.div_mul. lia.
Qed.

Lemma truncate_holds (f : spec_float) (z : Z) :
  Z.abs z < 2 ^ 53 → holds f z → truncate f = Some z.
Proof.
  intros Hz [->|[-> ->]]; [|done].
  destruct z as [|p|p]; [done| |]; cbn [Zfloat];
    rewrite truncate_canon by (apply digits_bound; lia); done.
Qed.

Lemma double_to_int_holds (f : spec_float) (z : Z) :
  int_range z → holds f z → double_to_int f = z.
Proof.
  intros Hz Hf. unfold double_to_int.
  rewrite (truncate_holds f z) by (unfold int_range in Hz; lia || done).
  by apply in_int_range in Hz as ->.
Qed.

Lemma cast_defined_holds (f : spec_float) (z : Z) :
  int_range z → holds f z → cast_defined f = true.
Proof.
  intros Hz Hf. unfold cast_defined.
  rewrite (truncate_holds f z) by (unfold int_range in Hz; lia || done).
  by apply in_int_range.
Qed.

Lemma holds_zero (s : bool) : holds (S754_zero s) 0.
Proof. destruct s; [right|left]; done. Qed.

Lemma holds_nonzero (f : spec_float) (z : Z) :
  holds f z → z ≠ 0 →
  ∃ p, f = canon (z <? 0) p ∧ z = cond_Zopp (z <? 0) (Z.pos p).
Proof.
  intros [->|[-> _]] Hz; [|done].
  destruct z as [|p|p]; [done|by exists p..].
Qed.

Lemma holds_cases (f : spec_float) (z : Z) :
  holds f z →
  (z = 0 ∧ ∃ s, f = S754_zero s) ∨
  (z ≠ 0 ∧ ∃ p, f = canon (z <? 0) p ∧ z = cond_Zopp (z <? 0) (Z.pos p)).
Proof.
  intros Hf. destruct (Z.eq_dec z 0) as [->|Hz].
  - left. split; [done|]. destruct Hf as [->|[_ ->]]; by eexists.
  - right. split; [done|]. by apply holds_nonzero.
Qed.

Lemma canon_mantissa (n : positive) :
  Z.pos (digits2_pos n) ≤ 53 →
  Z.pos (Z.to_pos (Z.pos n * 2 ^ (53 - Z.pos (digits2_pos n))))
  = Z.pos n * 2 ^ (53 - Z.pos (digits2_pos n)).
Proof.
  intros HD. apply Z2Pos.id. apply Z.mul_pos_pos; [lia|].
  apply Z.pow_pos_nonneg; lia.
Qed.

Lemma binary64_mul_holds (f g : spec_float) (a b : Z) :
  holds f a → holds g b → Z.abs (a * b) < 2 ^ 53 →
  holds (binary64_mul f g) (a * b).
Proof.
  intros Hf Hg Hab.
  destruct (holds_cases f a Hf) as [[-> [sa ->]]|[Ha (pa & -> & Hpa)]];
  destruct (holds_cases g b Hg) as [[-> [sb ->]]|[Hb (pb & -> & Hpb)]].
  - apply holds_zero.
  - rewrite Z.mul_0_l. apply holds_zero.
  - rewrite Z.mul_0_r. apply holds_zero.
  - assert (Hbound : Z.pos pa * Z.pos pb < 2 ^ 53).
    { rewrite Hpa, Hpb in Hab.
      destruct (a <? 0), (b <? 0); cbn [cond_Zopp] in Hab; lia. }
    assert (HDa : Z.pos (digits2_pos pa) ≤ 53) by (apply digits_bound; nia).
    assert (HDb : Z.pos (digits2_pos pb) ≤ 53) by (apply digits_bound; nia).
    left. unfold binary64_mul, canon at 1 2. cbn [SFmul].
    rewrite Pos2Z.inj_mul, !canon_mantissa by done.
    set (Da := Z.pos (digits2_pos pa)) in *.
    set (Db := Z.pos (digits2_pos pb)) in *.
    replace (Z.pos pa * 2 ^ (53 - Da) * (Z.pos pb * 2 ^ (53 - Db)))
      with (Z.pos (pa * pb) * 2 ^ (53 - Da + (53 - Db))).
    2:{ rewrite Z.pow_add_r, Pos2Z.inj_mul by lia. ring. }
    replace (Da - 53 + (Db - 53)) with (- (53 - Da + (53 - Db))) by lia.
    rewrite binary_round_aux_exact.
    + replace (a * b) with (cond_Zopp (xorb (a <? 0) (b <? 0)) (Z.pos (pa * pb))).
      * by destruct (a <? 0), (b <? 0).
      * rewrite Pos2Z.inj_mul.
        destruct (a <? 0), (b <? 0); cbn [cond_Zopp xorb] in *; nia.
    + apply digits_bound; lia.
    + rewrite (digits2_pos_log2 (pa * pb)), Pos2Z.inj_mul.
      pose proof (Z.log2_mul_below (Z.pos pa) (Z.pos pb)
                    ltac:(lia) ltac:(lia)).
      unfold Da, Db. rewrite (digits2_pos_log2 pa), (digits2_pos_log2 pb). lia.
Qed.

Lemma canon_aligned (s : bool) (p : positive) (ez : Z) :
  Z.pos (digits2_pos p) ≤ 53 → ez ≤ Z.pos (digits2_pos p) - 53 →
  cond_Zopp s
    (Z.pos (shl_align
              (Z.to_pos (Z.pos p * 2 ^ (53 - Z.pos (digits2_pos p))))
              (Z.pos (digits2_pos p) - 53) ez).1)
  = cond_Zopp s (Z.pos p) * 2 ^ (- ez).
Proof.
  intros HD Hez. rewrite shl_align_fst, canon_mantissa by done.
  rewrite <- Z.mul_assoc, <- Z.pow_add_r by lia.
  replace (53 - Z.pos (digits2_pos p) + (Z.pos (digits2_pos p) - 53 - ez))
    with (- ez) by lia.
  destruct s; cbn [cond_Zopp]; lia.
Qed.

Lemma binary_normalize_exact (z : Z) (j : Z) :
  Z.abs z < 2 ^ 53 → 0 ≤ j →
  binary_normalize 53 1024 (z * 2 ^ j) (- j) false = Zfloat z.
Proof.
  intros Hz Hj.
  assert (Hpow : 0 < 2 ^ j) by (apply Z.pow_pos_nonneg; lia).
  destruct z as [|p|p]; cbn [Zfloat].
  - done.
  - destruct (Z.pos p * 2 ^ j) as [|m|m] eqn:Hm; [lia| |lia].
    cbn [binary_normalize].
    apply (binary_round_exact _ p m j); [apply digits_bound; lia|lia|lia].
  - destruct (Z.neg p * 2 ^ j) as [|m|m] eqn:Hm; [lia|lia|].
    cbn [binary_normalize].
    apply (binary_round_exact _ p m j); [apply digits_bound; lia|lia|lia].
Qed.

Lemma binary64_add_holds (f g : spec_float) (a b : Z) :
  holds f a → holds g b →
  Z.abs a < 2 ^ 53 → Z.abs b < 2 ^ 53 → Z.abs (a + b) < 2 ^ 53 →
  holds (binary64_add f g) (a + b).
Proof.
  intros Hf Hg Habs Hbbs Hab.
  destruct (holds_cases f a Hf) as [[-> [sa ->]]|[Ha (pa & -> & Hpa)]];
  destruct (holds_cases g b Hg) as [[-> [sb ->]]|[Hb (pb & -> & Hpb)]].
  - destruct sa, sb; apply holds_zero.
  - rewrite Z.add_0_l. by destruct sa.
  - rewrite Z.add_0_r. by destruct sb.
  - assert (HDa : Z.pos (digits2_pos pa) ≤ 53).
    { apply digits_bound; [lia|]. destruct (a <? 0); cbn in Hpa; lia. }
    assert (HDb : Z.pos (digits2_pos pb) ≤ 53).
    { apply digits_bound; [lia|]. destruct (b <? 0); cbn in Hpb; lia. }
    left. unfold binary64_add, canon at 1 2. cbn [SFadd].
    set (ez := Z.min (Z.pos (digits2_pos pa) - 53) (Z.pos (digits2_pos pb) - 53)).
    rewrite !canon_aligned by (done || lia).
    rewrite <- Hpa, <- Hpb, <- Z.mul_add_distr_r.
    replace ez with (- - ez) at 2 by lia.
    apply binary_normalize_exact; lia.
Qed.

(** ** The candidate centres *)

Lemma int_to_double_holds (z : Z) :
  Z.abs z < 2 ^ 53 → holds (int_to_double z) z.
Proof. intros Hz. left. by apply int_to_double_Zfloat. Qed.

Lemma offsetDouble_holds (c r k : Z) (d : spec_float) :
  holds d k → Z.abs k ≤ 1 → int_range c → int_range r →
  holds (offsetDouble c d r) (c + k * r * 2).
Proof.
  unfold int_range. intros Hd Hk Hc Hr. unfold offsetDouble.
  assert (Hkr : Z.abs (k * r) ≤ 2 ^ 31) by nia.
  apply binary64_add_holds; [|..|lia|lia|lia].
  - apply int_to_double_holds. lia.
  - apply binary64_mul_holds; [|apply int_to_double_holds; lia|lia].
    apply binary64_mul_holds; [done|apply int_to_double_holds; lia|lia].
Qed.

Lemma offsetCoord_exact (c r k : Z) (d : spec_float) :
  holds d k → Z.abs k ≤ 1 → int_range c → int_range r →
  int_range (c + k * r * 2) →
  offsetCoord c d r = c + k * r * 2.
Proof.
  intros Hd Hk Hc Hr Hsum. unfold offsetCoord.
  apply double_to_int_holds; [done|]. by apply offsetDouble_holds.
Qed.

(** ** Rounding error of binary64 arithmetic *)

Lemma shr_1_half (mrs : shr_record) :
  0 ≤ shr_m mrs → shr_m (shr_1 mrs) = shr_m mrs / 2.
Proof.
  destruct mrs as [m r s]. cbn [shr_m]. intros Hm.
  destruct m as [|[p|p|]|p]; cbn [shr_1 shr_m]; [done| | |done|lia].
  - rewrite Pos2Z.inj_xI.
    apply (Z.div_unique_pos _ _ _ 1); lia.
  - rewrite Pos2Z.inj_xO.
    apply (Z.div_unique_pos _ _ _ 0); lia.
Qed.

Lemma iter_pos_shr_1_div (p : positive) : ∀ mrs,
  0 ≤ shr_m mrs →
  shr_m (SpecFloat.iter_pos shr_1 p mrs) = shr_m mrs / 2 ^ Z.pos p.
Proof.
  assert (Hhalf : ∀ mrs, 0 ≤ shr_m mrs → 0 ≤ shr_m (shr_1 mrs)).
  { intros mrs Hm. rewrite shr_1_half by done. apply Z.div_pos; lia. }
  induction p as [p IH|p IH|]; intros mrs Hm; cbn [SpecFloat.iter_pos].
  - assert (H1 : 0 ≤ shr_m (SpecFloat.iter_pos shr_1 p (shr_1 mrs))).
    { rewrite IH by auto. apply Z.div_pos; [auto|lia]. }
    rewrite IH, IH, shr_1_half by auto.
    rewrite !Z.div_div by lia. f_equal.
    replace (Z.pos p~1) with (1 + Z.pos p + Z.pos p) by lia.
    rewrite !Z.pow_add_r, Z.pow_1_r by lia. ring.
  - assert (H1 : 0 ≤ shr_m (SpecFloat.iter_pos shr_1 p mrs)).
    { rewrite IH by auto. apply Z.div_pos; [auto|lia]. }
    rewrite IH, IH by auto.
    rewrite !Z.div_div by lia. f_equal.
    replace (Z.pos p~0) with (Z.pos p + Z.pos p) by lia.
    rewrite !Z.pow_add_r by lia. ring.
  - rewrite shr_1_half by done. by rewrite Z.pow_1_r.
Qed.

Lemma round_nearest_even_near (q : Z) (l : location) :
  q ≤ round_nearest_even q l ≤ q + 1.
Proof.
  destruct l as [|[| |]]; cbn [round_nearest_even]; [lia| |lia|lia].
  destruct (Z.even q); lia.
Qed.

Lemma Zdigits2_bound (z k : Z) :
  0 ≤ k → 0 ≤ z < 2 ^ k → Zdigits2 z ≤ k.
Proof.
  intros Hk Hz. destruct z as [|p|p]; [done| |lia].
  cbn [Zdigits2]. apply digits_bound; lia.
Qed.

Lemma digits2_pos_bounds (m : positive) :
  2 ^ (Z.pos (digits2_pos m) - 1) ≤ Z.pos m < 2 ^ Z.pos (digits2_pos m).
Proof.
  rewrite digits2_pos_log2.
  replace (Z.log2 (Z.pos m) + 1 - 1) with (Z.log2 (Z.pos m)) by lia.
  replace (Z.log2 (Z.pos m) + 1) with (Z.succ (Z.log2 (Z.pos m))) by lia.
  apply Z.log2_spec. lia.
Qed.

Lemma shr_fexp_none (z e : Z) :
  0 ≤ z → fexp 53 1024 (Zdigits2 z + e) ≤ e →
  shr_fexp 53 1024 z e loc_Exact = (Build_shr_record z false false, e).
Proof.
  intros Hz Hn. unfold shr_fexp. cbn [shr_record_of_loc].
  destruct (fexp 53 1024 (Zdigits2 z + e) - e) as [|p|p] eqn:Hp; [done|lia|done].
Qed.

Lemma shr_fexp_shift (z e : Z) (p : positive) :
  0 ≤ z → fexp 53 1024 (Zdigits2 z + e) - e = Z.pos p →
  ∃ mrs, shr_fexp 53 1024 z e loc_Exact = (mrs, e + Z.pos p) ∧
         shr_m mrs = z / 2 ^ Z.pos p.
Proof.
  intros Hz Hn. unfold shr_fexp. cbn [shr_record_of_loc]. rewrite Hn.
  cbn [shr]. eexists. split; [done|].
  by rewrite iter_pos_shr_1_div.
Qed.

(** What [binary_round_aux] returns is the mantissa divided by a power of
    two, rounded down or up. *)
Lemma binary_round_aux_near (s : bool) (m : positive) (ex K : Z) :
  0 ≤ ex + K → ex ≤ 900 → Z.pos (digits2_pos m) + ex ≤ 1000 →
  fin K (binary_round_aux 53 1024 s (Z.pos m) ex loc_Exact) ∧
  Z.abs (scaled K (binary_round_aux 53 1024 s (Z.pos m) ex loc_Exact)
         - cond_Zopp s (Z.pos m) * 2 ^ (ex + K))
  ≤ 2 ^ (fexp 53 1024 (Z.pos (digits2_pos m) + ex) + K).
Proof.
  intros HK Hex HD.
  set (D := Z.pos (digits2_pos m)) in *.
  set (E := fexp 53 1024 (D + ex)).
  assert (HE : E = Z.max (D + ex - 53) (- 1074)) by done.
  assert (HfE : fexp 53 1024 (Zdigits2 (Z.pos m) + ex) = E) by done.
  assert (Hpow : 0 ≤ 2 ^ (E + K)) by (apply Z.pow_nonneg; lia).
  pose proof (digits2_pos_bounds m) as Hm. fold D in Hm.
  clearbody E D.
  unfold binary_round_aux.
  destruct (Z_le_gt_dec E ex) as [Hn|Hn].
  - (* no shift: the result is exact *)
    rewrite (shr_fexp_none (Z.pos m) ex) by (rewrite ?HfE; lia).
    cbn [shr_m loc_of_shr_record round_nearest_even].
    rewrite (shr_fexp_none (Z.pos m) ex) by (rewrite ?HfE; lia).
    cbn [shr_m].
    destruct (Z.leb_spec ex (1024 - 53)) as [_|?]; [|lia].
    cbn [fin scaled]. split; [done|].
    rewrite Z.sub_diag. cbn [Z.abs]. done.
  - destruct (E - ex) as [|p|p] eqn:Hp; [lia| |lia].
    destruct (shr_fexp_shift (Z.pos m) ex p ltac:(lia)
                ltac:(rewrite HfE; exact Hp))
      as (mrs & -> & Hq).
    set (q := shr_m mrs) in *.
    set (m2 := round_nearest_even q (loc_of_shr_record mrs)).
    pose proof (round_nearest_even_near q (loc_of_shr_record mrs)) as Hm2.
    fold m2 in Hm2.
    assert (Hp2 : 0 < 2 ^ Z.pos p) by (apply Z.pow_pos_nonneg; lia).
    assert (Hdiv : q * 2 ^ Z.pos p ≤ Z.pos m < (q + 1) * 2 ^ Z.pos p).
    { pose proof (Z.div_mod (Z.pos m) (2 ^ Z.pos p) ltac:(lia)) as Hdm.
      pose proof (Z.mod_pos_bound (Z.pos m) (2 ^ Z.pos p) Hp2) as Hmod.
      rewrite <- Hq in Hdm. lia. }
    assert (Hq0 : 0 ≤ q) by (rewrite Hq; apply Z.div_pos; lia).
    assert (Hq53 : q < 2 ^ 53).
    { rewrite Hq. apply Z.div_lt_upper_bound; [lia|].
      rewrite <- Z.pow_add_r by lia.
      eapply Z.lt_le_trans; [apply Hm|].
      apply Z.pow_le_mono_r; lia. }
    assert (HEe : ex + Z.pos p = E) by lia. rewrite HEe.
    assert (Herr : Z.abs (cond_Zopp s m2 * 2 ^ (E + K)
                          - cond_Zopp s (Z.pos m) * 2 ^ (ex + K))
                   ≤ 2 ^ (E + K)).
    { replace (E + K) with (Z.pos p + (ex + K)) by lia.
      rewrite Z.pow_add_r by lia.
      assert (0 < 2 ^ (ex + K)) by (apply Z.pow_pos_nonneg; lia).
      destruct s; cbn [cond_Zopp]; nia. }
    destruct (Z.eq_dec m2 (2 ^ 53)) as [Hbig|Hsmall].
    + (* the mantissa was rounded up to 2^53 *)
      rewrite Hbig in *.
      assert (Hsh : shr_fexp 53 1024 (2 ^ 53) E loc_Exact
                    = (Build_shr_record (2 ^ 52) false false, E + 1)).
      { unfold shr_fexp. cbn [shr_record_of_loc].
        change (Zdigits2 (2 ^ 53)) with 54.
        replace (fexp 53 1024 (54 + E) - E) with 1
          by (unfold fexp, emin; lia).
        done. }
      rewrite Hsh. cbn [shr_m].
      change (2 ^ 52) with (Z.pos (2 ^ 52)%positive).
      destruct (Z.leb_spec (E + 1) (1024 - 53)) as [_|?]; [|lia].
      cbn [fin scaled]. split; [lia|].
      replace (cond_Zopp s (Z.pos (2 ^ 52)) * 2 ^ (E + 1 + K))
        with (cond_Zopp s (2 ^ 53) * 2 ^ (E + K)); [done|].
      replace (E + 1 + K) with (1 + (E + K)) by lia.
      rewrite (Z.pow_add_r 2 1 (E + K)) by lia.
      destruct s; cbn [cond_Zopp]; lia.
    + assert (Hdig : Zdigits2 m2 ≤ 53) by (apply Zdigits2_bound; lia).
      rewrite (shr_fexp_none m2 E) by (unfold fexp, emin; lia).
      cbn [shr_m].
      destruct m2 as [|m3|m3] eqn:Hm3; [| |lia].
      * cbn [fin scaled]. split; [done|].
        by destruct s.
      * destruct (Z.leb_spec E (1024 - 53)) as [_|?]; [|lia].
        cbn [fin scaled]. split; [lia|done].
Qed.

Lemma binary_round_aux_bound (s : bool) (m : positive) (e K B : Z) :
  0 ≤ e + K → Z.pos m * 2 ^ (e + K) < 2 ^ (B + K) → - 1021 ≤ B ≤ 900 →
  fin K (binary_round_aux 53 1024 s (Z.pos m) e loc_Exact) ∧
  Z.abs (scaled K (binary_round_aux 53 1024 s (Z.pos m) e loc_Exact)
         - cond_Zopp s (Z.pos m) * 2 ^ (e + K))
  ≤ 2 ^ (B - 53 + K).
Proof.
  intros HK Hval HB.
  pose proof (digits2_pos_bounds m) as Hm.
  set (D := Z.pos (digits2_pos m)) in *.
  assert (HD1 : 1 ≤ D) by (unfold D; lia).
  assert (HBK : 0 ≤ B + K).
  { destruct (Z_lt_le_dec (B + K) 0) as [Hneg|]; [|done].
    rewrite (Z.pow_neg_r 2 (B + K)) in Hval by done.
    assert (0 < 2 ^ (e + K)) by (apply Z.pow_pos_nonneg; lia). nia. }
  assert (HDe : D + e ≤ B).
  { enough (D - 1 + (e + K) < B + K) by lia.
    apply (Z.pow_lt_mono_r_iff 2); [lia|lia|].
    eapply Z.le_lt_trans; [|exact Hval].
    rewrite Z.pow_add_r by lia.
    apply Z.mul_le_mono_nonneg_r; [apply Z.pow_nonneg; lia|lia]. }
  destruct (binary_round_aux_near s m e K HK) as [Hfin Herr]; [lia|fold D; lia|].
  split; [done|].
  eapply Z.le_trans; [exact Herr|].
  apply Z.pow_le_mono_r; [lia|]. fold D. unfold fexp, emin. lia.
Qed.

Lemma fin_mono (K J : Z) (f : spec_float) : fin K f → K ≤ J → fin J f.
Proof. destruct f as [| | |s m e]; cbn [fin]; try done. lia. Qed.

Lemma scaled_shift (K J : Z) (f : spec_float) :
  fin K f → 0 ≤ J → scaled (K + J) f = scaled K f * 2 ^ J.
Proof.
  destruct f as [| | |s m e]; cbn [fin scaled]; try done.
  intros He HJ. replace (e + (K + J)) with (e + K + J) by lia.
  rewrite Z.pow_add_r by lia. ring.
Qed.

(** The product of two finite numbers, when it stays below [2 ^ B], is
    within [2 ^ (B - 53)] of the exact product. *)
Lemma binary64_mul_near (x y : spec_float) (Kx Ky B : Z) :
  fin Kx x → fin Ky y → - 1021 ≤ B ≤ 900 →
  Z.abs (scaled Kx x * scaled Ky y) < 2 ^ (B + (Kx + Ky)) →
  fin (Kx + Ky) (binary64_mul x y) ∧
  Z.abs (scaled (Kx + Ky) (binary64_mul x y) - scaled Kx x * scaled Ky y)
  ≤ 2 ^ (B - 53 + (Kx + Ky)).
Proof.
  intros Hx Hy HB Hval.
  assert (Hpow : 0 ≤ 2 ^ (B - 53 + (Kx + Ky))) by (apply Z.pow_nonneg; lia).
  destruct x as [sx| | |sx mx ex]; [|done..|];
    (destruct y as [sy| | |sy my ey]; [|done..|]);
    cbn [fin scaled binary64_mul SFmul] in *;
    rewrite ?Z.mul_0_l, ?Z.mul_0_r; [done..|].
  assert (Hprod : cond_Zopp sx (Z.pos mx) * 2 ^ (ex + Kx)
                  * (cond_Zopp sy (Z.pos my) * 2 ^ (ey + Ky))
                  = cond_Zopp (xorb sx sy) (Z.pos (mx * my))
                    * 2 ^ (ex + ey + (Kx + Ky))).
  { replace (ex + ey + (Kx + Ky)) with ((ex + Kx) + (ey + Ky)) by lia.
    rewrite (Z.pow_add_r 2 (ex + Kx) (ey + Ky)), Pos2Z.inj_mul by lia.
    destruct sx, sy; cbn [cond_Zopp xorb]; ring. }
  rewrite Hprod in *.
  apply binary_round_aux_bound; [lia| |done].
  revert Hval. destruct (xorb sx sy); cbn [cond_Zopp].
  - rewrite Z.mul_opp_l, Z.abs_opp, Z.abs_eq; [done|].
    apply Z.mul_nonneg_nonneg; [lia|apply Z.pow_nonneg; lia].
  - rewrite Z.abs_eq; [done|].
    apply Z.mul_nonneg_nonneg; [lia|apply Z.pow_nonneg; lia].
Qed.

Lemma shl_align_spec (m : positive) (e e' : Z) :
  ∃ mz ez, shl_align m e e' = (mz, ez) ∧ ez = Z.min e e' ∧
           Z.pos mz = Z.pos m * 2 ^ (e - ez).
Proof.
  unfold shl_align. destruct (e' - e) as [|d|d] eqn:Hd.
  - exists m, e. split_and!; [done|lia|].
    rewrite Z.sub_diag. lia.
  - exists m, e. split_and!; [done|lia|].
    rewrite Z.sub_diag. lia.
  - exists (Pos.iter xO m d), e'. split_and!; [done|lia|].
    rewrite Pos_iter_xO. do 2 f_equal. lia.
Qed.

Lemma binary_round_bound (s : bool) (m : positive) (e K B : Z) :
  0 ≤ e - 52 + K → Z.pos m * 2 ^ (e + K) < 2 ^ (B + K) → - 1021 ≤ B ≤ 900 →
  fin K (binary_round 53 1024 s m e) ∧
  Z.abs (scaled K (binary_round 53 1024 s m e)
         - cond_Zopp s (Z.pos m) * 2 ^ (e + K))
  ≤ 2 ^ (B - 53 + K).
Proof.
  intros HK Hval HB. unfold binary_round.
  destruct (shl_align_spec m e (fexp 53 1024 (Z.pos (digits2_pos m) + e)))
    as (mz & ez & -> & Hez & Hmz).
  assert (Hlow : e - 52 ≤ ez).
  { rewrite Hez. unfold fexp, emin.
    pose proof (Pos2Z.is_pos (digits2_pos m)). lia. }
  assert (Hsame : Z.pos mz * 2 ^ (ez + K) = Z.pos m * 2 ^ (e + K)).
  { rewrite Hmz, <- Z.mul_assoc, <- Z.pow_add_r by lia.
    do 2 f_equal. lia. }
  destruct (binary_round_aux_bound s mz ez K B) as [Hfin Herr];
    [lia|by rewrite Hsame|done|].
  split; [done|].
  replace (cond_Zopp s (Z.pos m) * 2 ^ (e + K))
    with (cond_Zopp s (Z.pos mz) * 2 ^ (ez + K)); [done|].
  destruct s; cbn [cond_Zopp]; lia.
Qed.

(** The sum of two finite numbers, when it stays below [2 ^ B], is within
    [2 ^ (B - 53)] of the exact sum. *)
Lemma binary64_add_near (x y : spec_float) (K B : Z) :
  fin (K - 52) x → fin (K - 52) y → - 1021 ≤ B ≤ 900 →
  Z.abs (scaled K x + scaled K y) < 2 ^ (B + K) →
  fin K (binary64_add x y) ∧
  Z.abs (scaled K (binary64_add x y) - (scaled K x + scaled K y))
  ≤ 2 ^ (B - 53 + K).
Proof.
  intros Hx Hy HB Hval.
  assert (Hpow : 0 ≤ 2 ^ (B - 53 + K)) by (apply Z.pow_nonneg; lia).
  destruct x as [sx| | |sx mx ex]; [|done..|];
    (destruct y as [sy| | |sy my ey]; [|done..|]);
    cbn [fin binary64_add SFadd] in *.
  - destruct sx, sy; cbn [fin scaled]; done.
  - split; [lia|]. cbn [scaled].
    rewrite Z.add_0_l, Z.sub_diag. done.
  - split; [lia|]. cbn [scaled].
    rewrite Z.add_0_r, Z.sub_diag. done.
  - set (ez := Z.min ex ey).
    destruct (shl_align_spec mx ex ez) as (ax & ex' & Hax & Hex' & Hmx).
    destruct (shl_align_spec my ey ez) as (ay & ey' & Hay & Hey' & Hmy).
    rewrite Hax, Hay. cbn [fst].
    assert (Hex'' : ex' = ez) by lia.
    assert (Hey'' : ey' = ez) by lia.
    rewrite Hex'' in Hmx. rewrite Hey'' in Hmy.
    set (M := cond_Zopp sx (Z.pos ax) + cond_Zopp sy (Z.pos ay)).
    assert (Hsum : scaled K (S754_finite sx mx ex)
                   + scaled K (S754_finite sy my ey)
                   = M * 2 ^ (ez + K)).
    { cbn [scaled]. unfold M. rewrite Z.mul_add_distr_r.
      assert (Ha : ∀ s m a e, Z.pos a = Z.pos m * 2 ^ (e - ez) → ez ≤ e →
                 0 ≤ ez + K →
                 cond_Zopp s (Z.pos m) * 2 ^ (e + K)
                 = cond_Zopp s (Z.pos a) * 2 ^ (ez + K)).
      { intros s m a e Hm Hle Hk.
        replace (e + K) with ((e - ez) + (ez + K)) by lia.
        rewrite Z.pow_add_r by lia.
        destruct s; cbn [cond_Zopp]; rewrite Hm; ring. }
      rewrite (Ha sx mx ax ex), (Ha sy my ay ey) by (done || lia). done. }
    rewrite Hsum in *. clearbody M.
    assert (Hp : 0 < 2 ^ (ez + K)) by (apply Z.pow_pos_nonneg; lia).
    destruct M as [|m|m]; cbn [binary_normalize].
    + cbn [fin scaled]. split; [done|]. done.
    + apply (binary_round_bound false m ez K B); [lia| |done].
      rewrite Z.abs_eq in Hval by lia. done.
    + destruct (binary_round_bound true m ez K B) as [Hfin Herr];
        [lia| |done|].
      * rewrite <- Z.abs_opp, <- Z.mul_opp_l, Z.abs_eq in Hval by lia. done.
      * split; [done|]. done.
Qed.

(** Truncation toward zero, on scaled values. *)
Lemma truncate_scaled (K : Z) (f : spec_float) :
  0 ≤ K → fin K f →
  ∃ T, truncate f = Some T ∧
       (0 ≤ scaled K f → T * 2 ^ K ≤ scaled K f < (T + 1) * 2 ^ K) ∧
       (scaled K f ≤ 0 → (T - 1) * 2 ^ K < scaled K f ≤ T * 2 ^ K).
Proof.
  intros HK.
  assert (HpK : 0 < 2 ^ K) by (apply Z.pow_pos_nonneg; lia).
  destruct f as [s| | |s m e]; cbn [fin truncate scaled]; [|done..|].
  - intros _. exists 0. split; [done|]. lia.
  - intros He. eexists. split; [done|].
    destruct e as [|e|e].
    + rewrite Z.pow_0_r, Z.mul_1_r, Z.add_0_l.
      destruct s; cbn [cond_Zopp]; nia.
    + rewrite Z.pow_add_r by lia.
      assert (0 < 2 ^ Z.pos e) by (apply Z.pow_pos_nonneg; lia).
      destruct s; cbn [cond_Zopp]; nia.
    + assert (HKe : 0 < Z.pos e ≤ K) by lia.
      assert (Hp : 0 < 2 ^ Z.pos e) by (apply Z.pow_pos_nonneg; lia).
      assert (Hsplit : 2 ^ K = 2 ^ Z.pos e * 2 ^ (Z.neg e + K)).
      { rewrite <- Z.pow_add_r by lia. f_equal. lia. }
      assert (Hq : 0 < 2 ^ (Z.neg e + K)) by (apply Z.pow_pos_nonneg; lia).
      pose proof (Z.div_mod (Z.pos m) (2 ^ Z.pos e) ltac:(lia)) as Hdm.
      pose proof (Z.mod_pos_bound (Z.pos m) (2 ^ Z.pos e) Hp) as Hmod.
      set (q := Z.pos m / 2 ^ Z.pos e) in *.
      set (r := Z.pos m mod 2 ^ Z.pos e) in *.
      rewrite Hsplit. set (P := 2 ^ Z.pos e) in *.
      set (Q := 2 ^ (Z.neg e + K)) in *.
      clearbody q r P Q.
      destruct s; cbn [cond_Zopp]; nia.
Qed.

Lemma scaled_Zfloat (K z : Z) :
  52 ≤ K → Z.abs z < 2 ^ 53 →
  fin K (Zfloat z) ∧ scaled K (Zfloat z) = z * 2 ^ K.
Proof.
  intros HK Hz.
  assert (Hc : ∀ s n, Z.pos n < 2 ^ 53 →
            fin K (canon s n) ∧
            scaled K (canon s n) = cond_Zopp s (Z.pos n) * 2 ^ K).
  { intros s n Hn.
    assert (HD : Z.pos (digits2_pos n) ≤ 53) by (apply digits_bound; lia).
    unfold canon. cbn [fin scaled]. rewrite canon_mantissa by done.
    set (D := Z.pos (digits2_pos n)) in *.
    assert (HD1 : 1 ≤ D) by (unfold D; lia).
    split; [lia|].
    replace (2 ^ K) with (2 ^ (53 - D) * 2 ^ (D - 53 + K)).
    - destruct s; cbn [cond_Zopp]; ring.
    - rewrite <- Z.pow_add_r by lia. f_equal. lia. }
  destruct z as [|n|n]; cbn [Zfloat].
  - by cbn [fin scaled].
  - apply (Hc false n). lia.
  - apply (Hc true n). lia.
Qed.

(** The [double] that is cast, for any direction component of magnitude
    at most 1: it is within [2 ^ (- 17)] of [c + d * radius * 2]. *)
Lemma offsetDouble_near (c r : Z) (d : spec_float) :
  fin 53 d → Z.abs (scaled 53 d) ≤ 2 ^ 53 → int_range c → int_range r →
  fin 209 (offsetDouble c d r) ∧
  Z.abs (scaled 209 (offsetDouble c d r)
         - (c * 2 ^ 209 + scaled 53 d * r * 2 ^ 157))
  ≤ 2 ^ 192.
Proof.
  unfold int_range. intros Hd Ha Hc Hr. unfold offsetDouble.
  rewrite !int_to_double_Zfloat by lia.
  destruct (scaled_Zfloat 52 r) as [Hfr Hsr]; [lia..|].
  destruct (scaled_Zfloat 52 2) as [Hf2 Hs2]; [lia..|].
  destruct (scaled_Zfloat 52 c) as [Hfc Hsc]; [lia..|].
  set (a := scaled 53 d) in *.
  assert (HP : Z.abs (a * r) ≤ 2 ^ 53 * 2 ^ 31).
  { rewrite Z.abs_mul. apply Z.mul_le_mono_nonneg; lia. }
  destruct (binary64_mul_near d (Zfloat r) 53 52 32) as [Hf1 He1];
    [done|done|lia| |].
  { fold a. rewrite Hsr, Z.mul_assoc.
    set (P := a * r) in *. clearbody P. lia. }
  fold a in He1. rewrite Hsr, Z.mul_assoc in He1.
  change (53 + 52) with 105 in *.
  set (w1 := binary64_mul d (Zfloat r)) in *.
  destruct (binary64_mul_near w1 (Zfloat 2) 105 52 33) as [Hf2' He2];
    [done|done|lia| |].
  { rewrite Hs2. set (V1 := scaled 105 w1) in *.
    set (P := a * r) in *. clearbody V1 P. lia. }
  rewrite Hs2 in He2.
  change (105 + 52) with 157 in *.
  set (w2 := binary64_mul w1 (Zfloat 2)) in *.
  assert (Hw2 : scaled 209 w2 = scaled 157 w2 * 2 ^ 52).
  { change 209 with (157 + 52).
    by rewrite (scaled_shift 157 52) by (done || lia). }
  assert (Hc209 : scaled 209 (Zfloat c) = c * 2 ^ 209).
  { change 209 with (52 + 157) at 1.
    rewrite (scaled_shift 52 157 (Zfloat c) Hfc ltac:(lia)), Hsc.
    rewrite <- Z.mul_assoc, <- Z.pow_add_r by lia. done. }
  destruct (binary64_add_near (Zfloat c) w2 209 35) as [Hf3 He3];
    [by eapply fin_mono; [exact Hfc|]|by eapply fin_mono; [exact Hf2'|]
    |lia| |].
  { rewrite Hw2, Hc209.
    set (V2 := scaled 157 w2) in *.
    set (V1 := scaled 105 w1) in *.
    set (P := a * r) in *. clearbody V2 V1 P. lia. }
  split; [done|].
  rewrite Hw2, Hc209 in He3.
  set (V3 := scaled 209 (binary64_add (Zfloat c) w2)) in *.
  set (V2 := scaled 157 w2) in *.
  set (V1 := scaled 105 w1) in *.
  set (P := a * r) in *. clearbody V3 V2 V1 P. lia.
Qed.

Lemma offsetDouble_radius_0 (c : Z) (d : spec_float) :
  int_range c → is_finite d = true → holds (offsetDouble c d 0) c.
Proof.
  intros Hc Hd. unfold offsetDouble.
  assert (Hz : ∃ s, binary64_mul (binary64_mul d (int_to_double 0))
                      (int_to_double 2) = S754_zero s).
  { destruct d as [s|s| |s m e]; try done; eexists; reflexivity. }
  destruct Hz as [s ->].
  replace c with (c + 0) at 2 by lia.
  unfold int_range in Hc.
  apply binary64_add_holds; [apply int_to_double_holds; lia| |lia..].
  apply holds_zero.
Qed.

Lemma fin_is_finite (K : Z) (f : spec_float) : fin K f → is_finite f = true.
Proof. by destruct f. Qed.

(** The cast of [c + d * radius * 2] for a diagonal component [d], of
    magnitude between 1/2 and 3/4: the result is within 1 of the exact
    value and lies between [c] and [c + 2 * radius] on the side of the
    sign of [d * radius]. *)
Lemma offsetCoord_diagonal (c r : Z) (d : spec_float) :
  fin 53 d → 2 ^ 52 ≤ Z.abs (scaled 53 d) ≤ 3 * 2 ^ 51 →
  int_range c → int_range r →
  int_range (c - 2 * Z.abs r) → int_range (c + 2 * Z.abs r) →
  cast_defined (offsetDouble c d r) = true ∧
  Z.abs ((offsetCoord c d r - c) * 2 ^ 53 - 2 * (scaled 53 d * r))
  < 2 ^ 53 + 2 ^ 37 ∧
  (0 ≤ scaled 53 d * r → c ≤ offsetCoord c d r ≤ c + 2 * Z.abs r) ∧
  (scaled 53 d * r ≤ 0 → c - 2 * Z.abs r ≤ offsetCoord c d r ≤ c).
Proof.
  intros Hd Ha Hc Hr Hlo Hhi.
  destruct (Z.eq_dec r 0) as [->|Hr0].
  { pose proof (offsetDouble_radius_0 c d Hc (fin_is_finite _ _ Hd)) as Hh.
    unfold offsetCoord.
    rewrite (cast_defined_holds _ c Hc Hh), (double_to_int_holds _ c Hc Hh).
    rewrite Z.mul_0_r, Z.sub_diag. cbn [Z.abs Z.mul Z.sub Z.opp Z.add].
    split_and!; [done|lia|lia|lia]. }
  destruct (offsetDouble_near c r d Hd ltac:(lia) Hc Hr) as [Hfin Hnear].
  destruct (truncate_scaled 209 _ ltac:(lia) Hfin) as (T & HT & Hpos & Hneg).
  set (S := scaled 209 (offsetDouble c d r)) in *.
  set (a := scaled 53 d) in *.
  assert (HP : 2 ^ 52 * Z.abs r ≤ Z.abs (a * r) ≤ 3 * 2 ^ 51 * Z.abs r).
  { rewrite Z.abs_mul. split; apply Z.mul_le_mono_nonneg_r; lia. }
  replace (a * r * 2 ^ 157) with ((a * r) * 2 ^ 157) in Hnear by ring.
  set (P := a * r) in *.
  unfold int_range in *.
  assert (HR : 1 ≤ Z.abs r) by lia.
  set (R := Z.abs r) in *.
  clearbody S P R.
  assert (Hbounds : Z.abs ((T - c) * 2 ^ 53 - 2 * P) < 2 ^ 53 + 2 ^ 37 ∧
                    (0 ≤ P → c ≤ T ≤ c + 2 * R) ∧
                    (P ≤ 0 → c - 2 * R ≤ T ≤ c)).
  { destruct (Z_le_gt_dec 0 S) as [HS|HS];
      [specialize (Hpos HS); clear Hneg
      |specialize (Hneg ltac:(lia)); clear Hpos]; lia. }
  assert (HTint : int_range T).
  { unfold int_range. destruct (Z_le_gt_dec 0 P); lia. }
  unfold cast_defined, offsetCoord, double_to_int. rewrite HT.
  apply in_int_range in HTint as ->. done.
Qed.

(** The literal [0.7071] and its opposite. *)
Lemma lit_0_7071_value :
  lit_0_7071 = S754_finite false 6368990593027355 (-53) ∧
  SFopp lit_0_7071 = S754_finite true 6368990593027355 (-53).
Proof. split; vm_compute; reflexivity. Qed.

(** A diagonal component: the candidate coordinate is within one pixel of
    [c + 1.4142 * radius] (of [c - 1.4142 * radius] for the opposite
    sign) and on the side of [c] the direction points to. *)
Lemma offsetCoord_0_7071 (s : bool) (c r : Z) :
  int_range c → int_range r →
  int_range (c - 2 * Z.abs r) → int_range (c + 2 * Z.abs r) →
  let d := S754_finite s 6368990593027355 (-53) in
  let k := cond_Zopp s 14142 in
  cast_defined (offsetDouble c d r) = true ∧
  Z.abs (10000 * (offsetCoord c d r - c) - k * r) ≤ 10000 ∧
  (0 ≤ k * r → c ≤ offsetCoord c d r ≤ c + 2 * Z.abs r) ∧
  (k * r ≤ 0 → c - 2 * Z.abs r ≤ offsetCoord c d r ≤ c).
Proof.
  intros Hc Hr Hlo Hhi d k.
  assert (Ha : scaled 53 d = cond_Zopp s 6368990593027355)
    by (destruct s; reflexivity).
  destruct (offsetCoord_diagonal c r d) as (Hcast & Hnear & Hpos & Hneg);
    [cbn; lia|rewrite Ha; destruct s; cbn; lia|done..|].
  rewrite Ha in *.
  set (T := offsetCoord c d r) in *. clearbody T.
  unfold int_range in *. subst k.
  split; [done|].
  destruct s; cbn [cond_Zopp] in *; lia.
Qed.

(** ** Where the candidate arithmetic stays inside [int] *)

Lemma offsetCoord_axis (c r k : Z) (d : spec_float) :
  holds d k → Z.abs k ≤ 1 → int_range c → int_range r →
  int_range (c - 2 * Z.abs r) → int_range (c + 2 * Z.abs r) →
  cast_defined (offsetDouble c d r) = true ∧
  c - 2 * Z.abs r ≤ offsetCoord c d r ≤ c + 2 * Z.abs r.
Proof.
  intros Hd Hk Hc Hr Hlo Hhi.
  assert (Hsum : int_range (c + k * r * 2)).
  { unfold int_range in *.
    assert (Hk3 : k = -1 ∨ k = 0 ∨ k = 1) by lia.
    destruct Hk3 as [-> | [-> | ->]]; lia. }
  pose proof (offsetDouble_holds c r k d Hd Hk Hc Hr) as Hh.
  rewrite (cast_defined_holds _ _ Hsum Hh).
  rewrite (offsetCoord_exact c r k d) by done.
  split; [done|].
  assert (Hk3 : k = -1 ∨ k = 0 ∨ k = 1) by lia.
  destruct Hk3 as [-> | [-> | ->]]; lia.
Qed.

Lemma offsetCoord_diag (s : bool) (c r : Z) :
  int_range c → int_range r →
  int_range (c - 2 * Z.abs r) → int_range (c + 2 * Z.abs r) →
  cast_defined (offsetDouble c (S754_finite s 6368990593027355 (-53)) r)
  = true ∧
  c - 2 * Z.abs r
  ≤ offsetCoord c (S754_finite s 6368990593027355 (-53)) r
  ≤ c + 2 * Z.abs r.
Proof.
  intros Hc Hr Hlo Hhi.
  destruct (offsetCoord_0_7071 s c r Hc Hr Hlo Hhi)
    as (Hcast & _ & Hpos & Hneg).
  split; [done|].
  destruct (Z_le_gt_dec 0 (cond_Zopp s 14142 * r)); lia.
Qed.

(** Whatever the direction of [kDirs], the two casts have a defined
    result and the candidate centre is at most [2 * |radius|] away from
    the centre in each coordinate. *)
Lemma srcCenter_reach (center : Point) (radius : Z) (d : Point2d) :
  d ∈ kDirs →
  int_range (pt_x center) → int_range (pt_y center) → int_range radius →
  int_range (pt_x center - 2 * Z.abs radius) →
  int_range (pt_x center + 2 * Z.abs radius) →
  int_range (pt_y center - 2 * Z.abs radius) →
  int_range (pt_y center + 2 * Z.abs radius) →
  (cast_defined (offsetDouble (pt_x center) (d_x d) radius) = true ∧
   pt_x center - 2 * Z.abs radius ≤ pt_x (srcCenter center radius d)
   ≤ pt_x center + 2 * Z.abs radius) ∧
  (cast_defined (offsetDouble (pt_y center) (d_y d) radius) = true ∧
   pt_y center - 2 * Z.abs radius ≤ pt_y (srcCenter center radius d)
   ≤ pt_y center + 2 * Z.abs radius).
Proof.
  intros Hd Hx Hy Hr Hxl Hxh Hyl Hyh.
  assert (H1 : holds lit_1 1) by (by apply int_to_double_holds).
  assert (H0 : holds lit_0 0) by (by apply int_to_double_holds).
  assert (Hm1 : holds lit_m1 (-1)) by (by apply int_to_double_holds).
  destruct lit_0_7071_value as [Hp Hn].
  pose proof (λ c, offsetCoord_axis c radius 1 lit_1 H1 ltac:(lia)) as A1.
  pose proof (λ c, offsetCoord_axis c radius 0 lit_0 H0 ltac:(lia)) as A0.
  pose proof (λ c, offsetCoord_axis c radius (-1) lit_m1 Hm1 ltac:(lia)) as Am.
  pose proof (λ c, offsetCoord_diag false c radius) as Dp.
  pose proof (λ c, offsetCoord_diag true c radius) as Dn.
  rewrite <- Hp in Dp. rewrite <- Hn in Dn.
  unfold kDirs in Hd. unfold srcCenter. cbn [pt_x pt_y].
  repeat (apply elem_of_cons in Hd as [->|Hd]);
    [..|by apply elem_of_nil in Hd]; cbn [d_x d_y dir_E dir_SE dir_S dir_SW
                                           dir_W dir_NW dir_N dir_NE].
  - split; [exact (A1 _ Hx Hr Hxl Hxh)|exact (A0 _ Hy Hr Hyl Hyh)].
  - split; [exact (Dp _ Hx Hr Hxl Hxh)|exact (Dp _ Hy Hr Hyl Hyh)].
  - split; [exact (A0 _ Hx Hr Hxl Hxh)|exact (A1 _ Hy Hr Hyl Hyh)].
  - split; [exact (Dn _ Hx Hr Hxl Hxh)|exact (Dp _ Hy Hr Hyl Hyh)].
  - split; [exact (Am _ Hx Hr Hxl Hxh)|exact (A0 _ Hy Hr Hyl Hyh)].
  - split; [exact (Dn _ Hx Hr Hxl Hxh)|exact (Dn _ Hy Hr Hyl Hyh)].
  - split; [exact (A0 _ Hx Hr Hxl Hxh)|exact (Am _ Hy Hr Hyl Hyh)].
  - split; [exact (Dp _ Hx Hr Hxl Hxh)|exact (Dn _ Hy Hr Hyl Hyh)].
Qed.

(** No candidate computation overflows when the centre is at least
    [3 * |radius| + 1] away from both ends of the range of [int]. *)
Lemma no_overflow_inside (center : Point) (radius : Z) (d : Point2d) :
  d ∈ kDirs → int_range radius →
  int_range (pt_x center - 3 * Z.abs radius - 1) →
  int_range (pt_x center + 3 * Z.abs radius + 1) →
  int_range (pt_y center - 3 * Z.abs radius - 1) →
  int_range (pt_y center + 3 * Z.abs radius + 1) →
  no_overflow center radius d = true.
Proof.
  intros Hd Hr Hxl Hxh Hyl Hyh.
  destruct (srcCenter_reach center radius d Hd)
    as [[Hcx Hbx] [Hcy Hby]]; [unfold int_range in *; lia..|].
  unfold no_overflow. rewrite Hcx, Hcy.
  set (p := srcCenter center radius d) in *. clearbody p.
  rewrite !andb_true_r, !andb_true_iff, !in_int_range.
  unfold int_range in *. lia.
Qed.




(** ** The order of the scores *)

Ltac sf_order :=
  unfold SFltb, SFleb, SFcompare, is_finite;
  repeat match goal with
         | f : spec_float |- _ => destruct f as [[]|[]| |[] ? ?]
         end;
  try done;
  repeat match goal with
         | |- context [Z.compare ?a ?b] =>
             destruct (Z.compare_spec a b); subst
         | |- context [Pos.compare_cont Eq ?a ?b] =>
             change (Pos.compare_cont Eq a b) with (Pos.compare a b);
             destruct (Pos.compare_spec a b); subst
         end;
  cbn [CompOpp]; try done; try lia.

Lemma SFltb_irrefl (x : spec_float) : SFltb x x = false.
Proof. sf_order. Qed.

Lemma SFltb_trans (x y m : spec_float) :
  SFltb x y = true → SFltb y m = true → SFltb x m = true.
Proof. sf_order. Qed.

Lemma SFltb_trans_le (x y m : spec_float) :
  SFltb x m = true → SFltb y m = false → y ≠ S754_nan →
  SFltb x y = true.
Proof. sf_order. Qed.

Lemma is_finite_not_nan (x : spec_float) :
  is_finite x = true → x ≠ S754_nan.
Proof. by destruct x. Qed.

Lemma SFltb_not_nan (x y : spec_float) : SFltb x y = true → x ≠ S754_nan.
Proof. by destruct x. Qed.

Lemma SFltb_false_le (x y : spec_float) :
  SFltb y x = false → is_finite x = true → is_finite y = true →
  SFleb x y = true.
Proof. sf_order. Qed.

Lemma SFltb_le (x y : spec_float) : SFltb x y = true → SFleb x y = true.
Proof. sf_order. Qed.

Lemma SFleb_refl (x : spec_float) : is_finite x = true → SFleb x x = true.
Proof. sf_order. Qed.

Lemma SFltb_infinity (x : spec_float) :
  is_finite x = true → SFltb x infinity = true.
Proof. unfold infinity. sf_order. Qed.

(** ** Reading pixels *)

Lemma mapM_seq_Some {A} (f : nat → option A) (n : nat) (l : list A) :
  mapM f (seq 0 n) = Some l ↔
  length l = n ∧ ∀ i, (i < n)%nat → f i = l !! i.
Proof.
  rewrite mapM_Some, Forall2_same_length_lookup, length_seq. split.
  - intros [Hlen H]. split; [done|]. intros i Hi.
    destruct (lookup_lt_is_Some_2 l i) as [x Hx]; [lia|].
    rewrite Hx. eapply (H i i x); [|done]. by apply lookup_seq.
  - intros [Hlen H]. split; [done|]. intros i j x [-> Hj]%lookup_seq Hx.
    simpl. by rewrite H.
Qed.

Lemma contents_Some (h : heap) (m : Mat) (px : Grid Vec3b) :
  contents h m = Some px ↔
  length px = Z.to_nat (rows m) ∧
  ∀ y, (y < Z.to_nat (rows m))%nat →
    ∃ row, px !! y = Some row ∧ length row = Z.to_nat (cols m) ∧
           ∀ x, (x < Z.to_nat (cols m))%nat → Mat_at h m y x = row !! x.
Proof.
  unfold contents. rewrite mapM_seq_Some. split.
  - intros [Hlen H]. split; [done|]. intros y Hy.
    specialize (H y Hy).
    destruct (lookup_lt_is_Some_2 px y) as [row Hrow]; [lia|].
    exists row. split; [done|]. rewrite Hrow in H.
    by apply mapM_seq_Some in H.
  - intros [Hlen H]. split; [done|]. intros y Hy.
    destruct (H y Hy) as (row & -> & Hr & Hx).
    by apply mapM_seq_Some.
Qed.

Lemma contents_is_Some (h : heap) (m : Mat) :
  is_Some (contents h m) ↔
  ∀ y x, (y < Z.to_nat (rows m))%nat → (x < Z.to_nat (cols m))%nat →
         is_Some (Mat_at h m y x).
Proof.
  unfold contents. rewrite mapM_is_Some, Forall_forall. split.
  - intros H y x Hy Hx.
    assert (Hin : y ∈ seq 0 (Z.to_nat (rows m))) by (apply elem_of_seq; lia).
    apply list_elem_of_In, H in Hin. simpl in Hin.
    rewrite mapM_is_Some, Forall_forall in Hin.
    apply (Hin x), list_elem_of_In, elem_of_seq. lia.
  - intros H y Hy%list_elem_of_In%elem_of_seq. simpl.
    rewrite mapM_is_Some, Forall_forall.
    intros x Hx%list_elem_of_In%elem_of_seq. apply H; lia.
Qed.

(** Allocating leaves the readable headers as they are. *)
Lemma Mat_at_app (h k : heap) (m : Mat) (y x : nat) :
  is_Some (Mat_at h m y x) → Mat_at (h ++ k) m y x = Mat_at h m y x.
Proof.
  unfold Mat_at. destruct (data m) as [a|]; simpl; [|done].
  destruct (h !! a) as [buf|] eqn:Ha; simpl; [|by intros [? ?]].
  intros _. by rewrite (lookup_app_l_Some _ _ _ _ Ha).
Qed.

Lemma contents_app (h k : heap) (m : Mat) (px : Grid Vec3b) :
  contents h m = Some px → contents (h ++ k) m = Some px.
Proof.
  rewrite !contents_Some. intros [Hlen H]. split; [done|].
  intros y Hy. destruct (H y Hy) as (row & Hrow & Hr & Hx).
  exists row. repeat split; [done..|]. intros x Hxlt.
  rewrite Mat_at_app; [by apply Hx|].
  rewrite Hx by done. apply lookup_lt_is_Some_2. lia.
Qed.

Lemma valid_data (h : heap) (m : Mat) :
  valid h m → 0 < rows m → 0 < cols m →
  ∃ a buf, data m = Some a ∧ h !! a = Some buf.
Proof.
  intros (_ & _ & H) Hr Hc.
  rewrite contents_is_Some in H.
  assert (is_Some (Mat_at h m 0 0)) as [v Hv] by (apply H; lia).
  unfold Mat_at in Hv. destruct (data m) as [a|]; simpl in Hv; [|done].
  destruct (h !! a) as [buf|] eqn:Hb; simpl in Hv; [|done]. by exists a, buf.
Qed.

(** ** Views *)

Lemma Mat_roi_Ok (m v : Mat) (rr cr : Range) :
  Mat_roi m rr cr = Ok v →
  (0 ≤ r_start rr ∧ r_start rr ≤ r_end rr ∧ r_end rr ≤ rows m) ∧
  (0 ≤ r_start cr ∧ r_start cr ≤ r_end cr ∧ r_end cr ≤ cols m) ∧
  v = {| data := data m;
         offy := offy m + Z.to_nat (r_start rr);
         offx := offx m + Z.to_nat (r_start cr);
         rows := r_end rr - r_start rr;
         cols := r_end cr - r_start cr |}.
Proof.
  unfold Mat_roi. case_match eqn:Hc; [|done].
  intros [= <-]. rewrite !andb_true_iff, !Z.leb_le in Hc.
  split; [lia|]. split; [lia|done].
Qed.

Lemma Mat_roi_not_Undefined (m : Mat) (rr cr : Range) :
  Mat_roi m rr cr ≠ Undefined.
Proof. unfold Mat_roi. by case_match. Qed.

Lemma Mat_roi_valid (h : heap) (m v : Mat) (rr cr : Range) :
  valid h m → Mat_roi m rr cr = Ok v → valid h v.
Proof.
  intros (Hr & Hc & H) (Hrr & Hcr & ->)%Mat_roi_Ok. unfold valid. simpl.
  split; [lia|]. split; [lia|].
  rewrite contents_is_Some in H. rewrite contents_is_Some. simpl.
  intros y x Hy Hx. simpl in Hy, Hx.
  specialize (H (Z.to_nat (r_start rr) + y)%nat (Z.to_nat (r_start cr) + x)%nat).
  unfold Mat_at in *. simpl. rewrite <- !Nat.add_assoc. apply H; lia.
Qed.
Lemma contents_frame (h h' : heap) (m : Mat) (px : Grid Vec3b) :
  contents h m = Some px →
  (∀ a buf, data m = Some a → h !! a = Some buf → h' !! a = Some buf) →
  contents h' m = Some px.
Proof.
  rewrite !contents_Some. intros [Hlen H] Hframe. split; [done|].
  intros y Hy. destruct (H y Hy) as (row & Hrow & Hr & Hx).
  exists row. repeat split; [done..|]. intros x Hxlt.
  rewrite <- (Hx x Hxlt).
  assert (Hsome : is_Some (Mat_at h m y x)).
  { rewrite Hx by done. apply lookup_lt_is_Some_2. lia. }
  unfold Mat_at in *. destruct (data m) as [a|]; simpl in *; [|done].
  destruct (h !! a) as [buf|] eqn:Ha; simpl in *; [|by destruct Hsome].
  by rewrite (Hframe a buf eq_refl Ha).
Qed.

Lemma contents_shape (h : heap) (m : Mat) (px : Grid Vec3b) :
  contents h m = Some px →
  shape (Z.to_nat (rows m)) (Z.to_nat (cols m)) px.
Proof.
  intros [Hlen H]%contents_Some. split; [done|].
  intros row [y Hy]%list_elem_of_lookup.
  destruct (H y) as (row' & Hrow' & Hl & _).
  { apply lookup_lt_Some in Hy. lia. }
  congruence.
Qed.

Lemma contents_whole (h : heap) (a : nat) (px : Grid Vec3b) (R C : Z) :
  h !! a = Some px → shape (Z.to_nat R) (Z.to_nat C) px →
  contents h (mkMat (Some a) 0 0 R C) = Some px.
Proof.
  intros Ha [Hlen Hrows]. apply contents_Some. simpl. split; [done|].
  intros y Hy. destruct (lookup_lt_is_Some_2 px y) as [row Hrow]; [lia|].
  exists row. split; [done|].
  split; [by eapply Hrows, list_elem_of_lookup_2|]. intros x Hx.
  unfold Mat_at. simpl. rewrite Ha. simpl. by rewrite Hrow.
Qed.

(** ** The bounds of a candidate *)

Lemma wrap_eq (z : Z) : ∃ k, wrap z = z + 2 ^ 32 * k.
Proof.
  exists (- ((z + 2 ^ 31) / 2 ^ 32)). unfold wrap.
  pose proof (Z.div_mod (z + 2 ^ 31) (2 ^ 32) ltac:(lia)). lia.
Qed.

(** Whatever wrapped, the bounds are [int] values whose differences are
    congruent to the diameter. *)
Lemma candidate_bounds (center : Point) (radius : Z) (d : Point2d) :
  int_range (x0 (candidate center radius d)) ∧
  int_range (x1 (candidate center radius d)) ∧
  int_range (y0 (candidate center radius d)) ∧
  int_range (y1 (candidate center radius d)) ∧
  (∃ k, x1 (candidate center radius d) - x0 (candidate center radius d)
        = 2 * radius + 1 + 2 ^ 32 * k) ∧
  (∃ k, y1 (candidate center radius d) - y0 (candidate center radius d)
        = 2 * radius + 1 + 2 ^ 32 * k).
Proof.
  unfold candidate, patchBounds, int_add, int_sub. cbn [x0 x1 y0 y1].
  split_and!; try apply wrap_range.
  - destruct (wrap_eq (pt_x (srcCenter center radius d) - radius)) as [k1 ->].
    destruct (wrap_eq (pt_x (srcCenter center radius d) + radius)) as [k2 ->].
    destruct (wrap_eq (pt_x (srcCenter center radius d) + radius + 2 ^ 32 * k2 + 1))
      as [k3 ->].
    exists (k2 + k3 - k1). lia.
  - destruct (wrap_eq (pt_y (srcCenter center radius d) - radius)) as [k1 ->].
    destruct (wrap_eq (pt_y (srcCenter center radius d) + radius)) as [k2 ->].
    destruct (wrap_eq (pt_y (srcCenter center radius d) + radius + 2 ^ 32 * k2 + 1))
      as [k3 ->].
    exists (k2 + k3 - k1). lia.
Qed.

(** Without overflow the bounds are those of the square of radius
    [radius] around the candidate centre. *)
Lemma candidate_no_overflow (center : Point) (radius : Z) (d : Point2d) :
  no_overflow center radius d = true →
  candidate center radius d =
  {| x0 := pt_x (srcCenter center radius d) - radius;
     y0 := pt_y (srcCenter center radius d) - radius;
     x1 := pt_x (srcCenter center radius d) + radius + 1;
     y1 := pt_y (srcCenter center radius d) + radius + 1 |}.
Proof.
  unfold no_overflow. rewrite !andb_true_iff, !in_int_range.
  intros ((((((((((_ & _) & _) & _) & _) & Hx0) & Hx) & Hx1) & Hy0) & Hy) & Hy1).
  unfold candidate, patchBounds, int_add, int_sub.
  rewrite (wrap_int _ Hx0), (wrap_int _ Hx), (wrap_int _ Hx1).
  by rewrite (wrap_int _ Hy0), (wrap_int _ Hy), (wrap_int _ Hy1).
Qed.

Lemma patchView_Ok (image v : Mat) (b : Bounds) :
  patchView image b = Ok v →
  (0 ≤ x0 b ∧ x0 b ≤ x1 b ∧ x1 b ≤ cols image) ∧
  (0 ≤ y0 b ∧ y0 b ≤ y1 b ∧ y1 b ≤ rows image) ∧
  rows v = y1 b - y0 b ∧ cols v = x1 b - x0 b ∧ data v = data image.
Proof.
  unfold patchView. intros (Hrr & Hcr & ->)%Mat_roi_Ok. simpl in *.
  split_and!; done || lia.
Qed.

(** A view of a candidate has the size of the diameter, as 32 bits hold
    it; it is never empty. *)
Lemma view_size (image v : Mat) (center : Point) (radius : Z) (d : Point2d) :
  patchView image (candidate center radius d) = Ok v →
  rows v = (2 * radius + 1) mod 2 ^ 32 ∧ cols v = (2 * radius + 1) mod 2 ^ 32 ∧
  0 < rows v ∧ 0 < cols v.
Proof.
  intros (Hx & Hy & -> & -> & _)%patchView_Ok.
  destruct (candidate_bounds center radius d)
    as (Hx0 & Hx1 & Hy0 & Hy1 & [kx Hkx] & [ky Hky]).
  unfold int_range in *.
  split_and!.
  - apply (Z.mod_unique _ _ (- ky)); lia.
  - apply (Z.mod_unique _ _ (- kx)); lia.
  - lia.
  - lia.
Qed.

Lemma view_size_small (image v : Mat) (center : Point) (radius : Z)
    (d : Point2d) :
  0 ≤ radius < 2 ^ 31 →
  patchView image (candidate center radius d) = Ok v →
  rows v = 2 * radius + 1 ∧ cols v = 2 * radius + 1.
Proof.
  intros Hr (-> & -> & _)%view_size.
  rewrite Z.mod_small by lia. done.
Qed.

Lemma inBounds_patchView (image : Mat) (center : Point) (radius : Z) (d : Point2d) :
  0 ≤ radius → no_overflow center radius d = true →
  inBounds image center radius d = true →
  ∃ v, patchView image (candidate center radius d) = Ok v.
Proof.
  unfold inBounds, outOfBounds, patchView, Mat_roi.
  intros Hr Hno Hb. apply negb_true_iff in Hb.
  rewrite !orb_false_iff, !Z.ltb_ge, !Z.gtb_ltb, !Z.ltb_ge in Hb.
  rewrite (candidate_no_overflow _ _ _ Hno) in *. simpl in *.
  case_match eqn:Hc; [eauto|].
  exfalso. revert Hc. rewrite !andb_false_iff, !Z.leb_gt. lia.
Qed.

(** ** Copies *)

Lemma contents_fresh (h : heap) (m : Mat) (px : Grid Vec3b) :
  contents h m = Some px → contents (h ++ [px]) (fresh h m) = Some px.
Proof.
  rewrite !contents_Some. simpl. intros [Hlen H]. split; [done|].
  intros y Hy. destruct (H y Hy) as (row & Hrow & Hr & _).
  exists row. repeat split; [done..|]. intros x Hx.
  unfold Mat_at. simpl. rewrite list_lookup_middle by done. simpl.
  by rewrite Hrow.
Qed.

Lemma clone_Ok (h : heap) (m : Mat) (px : Grid Vec3b) :
  Mat_empty m = false → contents h m = Some px →
  clone m h = Ok (fresh h m, h ++ [px]).
Proof. unfold clone. by intros -> ->. Qed.

Lemma Mat_empty_fresh (h : heap) (m : Mat) :
  Mat_empty m = false → Mat_empty (fresh h m) = false.
Proof. unfold Mat_empty. simpl. by destruct (data m). Qed.

(** ** One iteration of the search *)

Section Visit.
Context `{Imgproc}.

Lemma visit_skip (image : Mat) (center : Point) (radius : Z)
    (acc : Search * heap) (d : Point2d) :
  inBounds image center radius d = false →
  visit image center radius acc d = Ok acc.
Proof.
  unfold inBounds, visit, candidate. intros Hb%negb_false_iff. by rewrite Hb.
Qed.

Lemma visit_throw (image : Mat) (center : Point) (radius : Z)
    (acc : Search * heap) (d : Point2d) :
  inBounds image center radius d = true →
  patchView image (candidate center radius d) = Throw →
  visit image center radius acc d = Throw.
Proof.
  unfold inBounds, visit, candidate. intros Hb%negb_true_iff. rewrite Hb.
  by intros ->.
Qed.

Lemma view_inBounds (image v : Mat) (center : Point) (radius : Z)
    (d : Point2d) :
  patchView image (candidate center radius d) = Ok v →
  inBounds image center radius d = true.
Proof.
  intros (Hx & Hy & _)%patchView_Ok. unfold inBounds, outOfBounds.
  rewrite negb_true_iff, !orb_false_iff, !Z.gtb_ltb, !Z.ltb_ge. lia.
Qed.

Lemma view_not_empty (h : heap) (image v : Mat) (center : Point)
    (radius : Z) (d : Point2d) :
  valid h image →
  patchView image (candidate center radius d) = Ok v →
  Mat_empty v = false.
Proof.
  intros Hv Hview.
  destruct (view_size _ _ _ _ _ Hview) as (_ & _ & Hr & Hc).
  destruct (patchView_Ok _ _ _ Hview) as (Hx & Hy & Hrows & Hcols & Hdata).
  destruct (valid_data h image Hv) as (a & buf & Ha & _); [lia..|].
  unfold Mat_empty. rewrite Hdata, Ha.
  apply Z.eqb_neq. nia.
Qed.

Lemma candidatePixels_inBounds (h : heap) (image : Mat) (center : Point)
    (radius : Z) (d : Point2d) (px : Grid Vec3b) :
  candidatePixels h image center radius d = Some px →
  inBounds image center radius d = true.
Proof.
  unfold candidatePixels.
  destruct (patchView _ _) as [v| |] eqn:Hview; [|done..]. intros _.
  by eapply view_inBounds.
Qed.

Lemma visit_scored (h0 : heap) (image v : Mat) (center : Point)
    (radius : Z) (d : Point2d) :
  valid h0 image →
  patchView image (candidate center radius d) = Ok v →
  ∃ px, candidatePixels h0 image center radius d = Some px ∧
    ∀ s k,
      visit image center radius (s, h0 ++ k) d =
      if SFltb (patchVariance px) (minVariance s)
      then Ok (mkSearch (fresh (h0 ++ k) v) (patchVariance px),
               (h0 ++ k) ++ [px])
      else Ok (s, h0 ++ k).
Proof.
  intros Hv Hview.
  destruct (Mat_roi_valid h0 image v _ _ Hv Hview) as (_ & _ & [px Hpx]).
  pose proof (view_not_empty _ _ _ _ _ _ Hv Hview) as Hne.
  pose proof (view_inBounds _ _ _ _ _ Hview) as Hb.
  exists px. split; [unfold candidatePixels; by rewrite Hview|].
  intros s k. unfold visit. fold (candidate center radius d).
  unfold inBounds in Hb. apply negb_true_iff in Hb. rewrite Hb, Hview.
  simpl. unfold computePatchVariance. rewrite Hne.
  rewrite (contents_app _ k _ _ Hpx). simpl.
  by rewrite (clone_Ok _ _ px Hne (contents_app _ k _ _ Hpx)).
Qed.

End Visit.

Section Search.
Context `{Imgproc}.
Context (h0 : heap) (image : Mat) (center : Point) (radius : Z).
Hypothesis Hvalid : valid h0 image.

(** What the loop has done once it has gone through [dirs].  It threw
    because the view of a candidate that passed the guard failed its
    assertion; or it kept its accumulator because no candidate of [dirs]
    scored below [minVariance]; or it holds a copy, in an allocation of
    its own, of a candidate that scores strictly below the earlier ones
    and that no later one scores below. *)
Lemma scan_spec (dirs : list Point2d) : ∀ (s : Search) (k : heap),
  (scan image center radius (s, h0 ++ k) dirs = Throw ∧
   ∃ d, d ∈ dirs ∧ inBounds image center radius d = true ∧
        patchView image (candidate center radius d) = Throw) ∨
  ∃ s' k',
    scan image center radius (s, h0 ++ k) dirs = Ok (s', h0 ++ k ++ k') ∧
    ((s' = s ∧ k' = [] ∧
      ∀ d px, d ∈ dirs → candidatePixels h0 image center radius d = Some px →
              SFltb (patchVariance px) (minVariance s) = false)
     ∨
     (∃ pre d post px v a,
        dirs = pre ++ d :: post ∧
        candidatePixels h0 image center radius d = Some px ∧
        patchView image (candidate center radius d) = Ok v ∧
        bestPatch s' = mkMat (Some a) 0 0 (rows v) (cols v) ∧
        (length (h0 ++ k) ≤ a)%nat ∧
        (h0 ++ k ++ k') !! a = Some px ∧
        contents (h0 ++ k ++ k') (bestPatch s') = Some px ∧
        minVariance s' = patchVariance px ∧
        Mat_empty (bestPatch s') = false ∧
        SFltb (patchVariance px) (minVariance s) = true ∧
        (∀ d' px', d' ∈ pre → candidatePixels h0 image center radius d' = Some px' →
                   patchVariance px' ≠ S754_nan →
                   SFltb (patchVariance px) (patchVariance px') = true) ∧
        (∀ d' px', d' ∈ post → candidatePixels h0 image center radius d' = Some px' →
                   SFltb (patchVariance px') (patchVariance px) = false))).
Proof.
  induction dirs as [|d dirs IH]; intros s k.
  { right. exists s, []. rewrite !app_nil_r. split; [done|]. left.
    split_and!; [done..|]. by intros d px ?%elem_of_nil. }
  cbn [scan].
  destruct (inBounds image center radius d) eqn:Hb.
  - destruct (patchView image (candidate center radius d)) as [v| |] eqn:Hview.
    2:{ left. rewrite (visit_throw _ _ _ _ _ Hb Hview). split; [done|].
        exists d. split; [by left|done]. }
    2:{ by apply Mat_roi_not_Undefined in Hview. }
    destruct (visit_scored h0 image v center radius d Hvalid Hview)
      as (px & Hpx & Hvisit).
    rewrite Hvisit.
    destruct (SFltb (patchVariance px) (minVariance s)) eqn:Hlt.
    + (* the candidate becomes the best one *)
      simpl mbind. change (result_bind _ _ ?f (Ok ?a)) with (f a).
      rewrite <- (app_assoc h0 k [px]).
      destruct (IH (mkSearch (fresh (h0 ++ k) v) (patchVariance px))
                   (k ++ [px]))
        as [[-> (d' & Hd' & Hrest)]|(s' & k' & Hscan & Hcases)].
      { left. split; [done|]. exists d'. split; [by right|done]. }
      right. exists s', ([px] ++ k'). split.
      { rewrite Hscan. by rewrite <- !app_assoc. }
      right. destruct Hcases as [(-> & -> & Hrest)|Hchosen].
      * exists [], d, dirs, px, v, (length (h0 ++ k)).
        cbn [bestPatch minVariance].
        assert (Hc : contents (h0 ++ k ++ [px] ++ [])
                       (fresh (h0 ++ k) v) = Some px).
        { rewrite app_nil_r, app_assoc. apply contents_fresh.
          unfold candidatePixels in Hpx. rewrite Hview in Hpx.
          by apply contents_app. }
        split_and!; try done.
        -- rewrite app_nil_r, app_assoc. by apply list_lookup_middle.
        -- apply Mat_empty_fresh.
           by apply (view_not_empty h0 image v center radius d).
        -- by intros d' px' ?%elem_of_nil.
      * destruct Hchosen as (pre & d2 & post & px2 & v2 & a & -> & Hpx2 & Hv2
                             & Hb2 & Hlen & Hl & Hc & Hm & Hne & Hlt2
                             & Hpre & Hpost).
        cbn [minVariance] in Hlt2.
        exists (d :: pre), d2, post, px2, v2, a.
        split_and!; try done.
        -- rewrite !length_app in *. lia.
        -- by rewrite <- app_assoc in Hl.
        -- by rewrite <- app_assoc in Hc.
        -- by apply (SFltb_trans _ (patchVariance px)).
        -- intros d' px' [->|Hd']%elem_of_cons Hpx' Hfin.
           ++ rewrite Hpx in Hpx'. by injection Hpx' as <-.
           ++ by apply (Hpre d').
    + (* the candidate does not improve on the best one *)
      simpl mbind. change (result_bind _ _ ?f (Ok ?a)) with (f a).
      destruct (IH s k) as [[-> (d' & Hd' & Hrest)]|(s' & k' & Hscan & Hcases)].
      { left. split; [done|]. exists d'. split; [by right|done]. }
      right. exists s', k'. split; [done|].
      destruct Hcases as [(-> & -> & Hrest)|Hchosen].
      * left. split_and!; [done..|].
        intros d' px' [->|Hd']%elem_of_cons Hpx'.
        -- rewrite Hpx in Hpx'. by injection Hpx' as <-.
        -- by apply (Hrest d').
      * right.
        destruct Hchosen as (pre & d2 & post & px2 & v2 & a & -> & Hpx2 & Hv2
                             & Hb2 & Hlen & Hl & Hc & Hm & Hne & Hlt2
                             & Hpre & Hpost).
        exists (d :: pre), d2, post, px2, v2, a.
        split_and!; try done.
        intros d' px' [->|Hd']%elem_of_cons Hpx' Hfin.
        -- rewrite Hpx in Hpx'. injection Hpx' as <-.
           by apply (SFltb_trans_le _ _ (minVariance s)).
        -- by apply (Hpre d').
  - (* the candidate is skipped *)
    rewrite (visit_skip _ _ _ _ _ Hb).
    simpl mbind. change (result_bind _ _ ?f (Ok ?a)) with (f a).
    assert (Hnone : ∀ px, candidatePixels h0 image center radius d = Some px → False).
    { intros px Hpx%candidatePixels_inBounds. congruence. }
    destruct (IH s k) as [[-> (d' & Hd' & Hrest)]|(s' & k' & Hscan & Hcases)].
    { left. split; [done|]. exists d'. split; [by right|done]. }
    right. exists s', k'. split; [done|].
    destruct Hcases as [(-> & -> & Hrest)|Hchosen].
    + left. split_and!; [done..|].
      intros d' px' [->|Hd']%elem_of_cons Hpx'; [by destruct (Hnone px')|].
      by apply (Hrest d').
    + right.
      destruct Hchosen as (pre & d2 & post & px2 & v2 & a & -> & Hpx2 & Hv2
                           & Hb2 & Hlen & Hl & Hc & Hm & Hne & Hlt2
                           & Hpre & Hpost).
      exists (d :: pre), d2, post, px2, v2, a.
      split_and!; try done.
      intros d' px' [->|Hd']%elem_of_cons Hpx' Hfin;
        [by destruct (Hnone px')|].
      by apply (Hpre d').
Qed.
End Search.

(** ** selectBestPatch *)

Section Select.
Context `{Imgproc}.

Lemma selectBestPatch_spec (h : heap) (image : Mat) (center : Point)
    (radius : Z) :
  valid h image →
  (selectBestPatch image center radius h = Throw ∧
   ∃ d, d ∈ kDirs ∧ inBounds image center radius d = true ∧
        patchView image (candidate center radius d) = Throw) ∨
  ∃ best k,
    selectBestPatch image center radius h = Ok (best, h ++ k) ∧
    ((best = Mat_default ∧ k = [] ∧
      ∀ d px, d ∈ kDirs → candidatePixels h image center radius d = Some px →
              SFltb (patchVariance px) infinity = false)
     ∨
     (∃ pre d post px v a,
        kDirs = pre ++ d :: post ∧
        candidatePixels h image center radius d = Some px ∧
        patchView image (candidate center radius d) = Ok v ∧
        best = mkMat (Some a) 0 0 (rows v) (cols v) ∧
        (length h ≤ a)%nat ∧
        (h ++ k) !! a = Some px ∧
        contents (h ++ k) best = Some px ∧
        Mat_empty best = false ∧
        SFltb (patchVariance px) infinity = true ∧
        (∀ d' px', d' ∈ pre → candidatePixels h image center radius d' = Some px' →
                   patchVariance px' ≠ S754_nan →
                   SFltb (patchVariance px) (patchVariance px') = true) ∧
        (∀ d' px', d' ∈ post → candidatePixels h image center radius d' = Some px' →
                   SFltb (patchVariance px') (patchVariance px) = false))).
Proof.
  intros Hv. unfold selectBestPatch.
  destruct (scan_spec h image center radius Hv kDirs
              (mkSearch Mat_default infinity) [])
    as [[Hscan Hd]|(s' & k' & Hscan & Hcases)];
    rewrite app_nil_r in Hscan; cbn [app] in Hscan; rewrite Hscan.
  { by left. }
  right. exists (bestPatch s'), k'. split; [done|].
  destruct Hcases as [(-> & -> & Hnone)|Hchosen]; [by left|right].
  destruct Hchosen as (pre & d & post & px & v & a & Hsplit & Hpx & Hview
                       & Hb & Hlen & Hl & Hc & _ & Hne & Hlt & Hpre & Hpost).
  rewrite app_nil_r in Hlen. cbn [app] in Hl, Hc.
  by exists pre, d, post, px, v, a.
Qed.

Lemma selectBestPatch_not_Undefined (h : heap) (image : Mat) (center : Point)
    (radius : Z) :
  valid h image → selectBestPatch image center radius h ≠ Undefined.
Proof.
  intros Hv.
  by destruct (selectBestPatch_spec h image center radius Hv)
    as [[-> _]|(best & k & -> & _)].
Qed.

(** A call that returns has only added allocations. *)
Lemma selectBestPatch_extends (h h' : heap) (image best : Mat)
    (center : Point) (radius : Z) :
  valid h image →
  selectBestPatch image center radius h = Ok (best, h') →
  ∃ k, h' = h ++ k.
Proof.
  intros Hv Hsel.
  destruct (selectBestPatch_spec h image center radius Hv)
    as [[Ht _]|(best' & k & Hok & _)]; [congruence|].
  exists k. congruence.
Qed.


Lemma inBounds_pixels (h : heap) (image : Mat) (center : Point) (radius : Z)
    (d : Point2d) :
  valid h image → 0 ≤ radius → no_overflow center radius d = true →
  inBounds image center radius d = true →
  is_Some (candidatePixels h image center radius d).
Proof.
  intros Hv Hr Hno Hb.
  destruct (inBounds_patchView _ _ _ _ Hr Hno Hb) as [v Hview].
  unfold candidatePixels. rewrite Hview.
  by destruct (Mat_roi_valid h image v _ _ Hv Hview) as (_ & _ & ?).
Qed.


Lemma contents_default (h : heap) : contents h Mat_default = Some [].
Proof. done. Qed.

(** C1 (as amended): with all eight candidates inside the image and
    computed without overflow, and scores that are numbers,
    [selectBestPatch] returns a copy of the candidate with the minimal
    score, and among candidates tied for the minimum the first one in the
    order of [kDirs], which is E, SE, S, SW, W, NW, N, NE. *)
Theorem selectBestPatch_first_minimal (h : heap) (image : Mat)
    (center : Point) (radius : Z) :
  valid h image → 0 ≤ radius →
  (∀ d, d ∈ kDirs → no_overflow center radius d = true) →
  (∀ d, d ∈ kDirs → inBounds image center radius d = true) →
  finite_scores h image center radius kDirs →
  ∃ d px best h',
    selectBestPatch image center radius h = Ok (best, h') ∧
    contents h' best = Some px ∧
    firstMinimalIn h image center radius kDirs d px ∧
    (∀ d', d' ∈ kDirs →
       ∃ px', candidatePixels h image center radius d' = Some px' ∧
              SFleb (patchVariance px) (patchVariance px') = true).
Proof.
  intros Hv Hr Hno Hall Hfin.
  destruct (selectBestPatch_spec h image center radius Hv)
    as [[_ (d & Hd & Hb & Hview)]|(best & k & Hok & Hcases)].
  { destruct (inBounds_patchView image center radius d Hr (Hno d Hd) Hb)
      as [v Hv']. congruence. }
  destruct Hcases as [(_ & _ & Hnone)|Hchosen].
  - exfalso.
    destruct (inBounds_pixels h image center radius dir_E Hv Hr) as [px Hpx].
    { apply Hno. by left. }
    { apply Hall. by left. }
    specialize (Hnone dir_E px ltac:(by left) Hpx).
    rewrite SFltb_infinity in Hnone; [done|].
    apply (Hfin dir_E); [by left|done].
  - destruct Hchosen as (pre & d & post & px & v & a & Hsplit & Hpx & _ & _ & _
                         & _ & Hc & _ & _ & Hpre & Hpost).
    assert (Hd : d ∈ kDirs).
    { rewrite Hsplit. apply elem_of_app. right. by left. }
    assert (Hin : ∀ d', d' ∈ pre ∨ d' ∈ post → d' ∈ kDirs).
    { intros d' Hd'. rewrite Hsplit. apply elem_of_app.
      destruct Hd' as [?|?]; [by left|right; by right]. }
    exists d, px, best, (h ++ k).
    split; [done|]. split; [done|]. split.
    + exists pre, post. split_and!; [done..| |].
      * intros d' px' Hd' Hpx'. apply (Hpre d'); [done..|].
        apply is_finite_not_nan, (Hfin d'); [|done]. apply Hin. by left.
      * intros d' px' Hd' Hpx'. apply SFltb_false_le.
        -- by apply (Hpost d').
        -- by apply (Hfin d).
        -- apply (Hfin d'); [|done]. apply Hin. by right.
    + intros d' Hd'.
      destruct (inBounds_pixels h image center radius d' Hv Hr
                  (Hno d' Hd') (Hall d' Hd')) as [px' Hpx'].
      exists px'. split; [done|].
      pose proof (Hfin d' px' Hd' Hpx') as Hfin'.
      rewrite Hsplit in Hd'. apply elem_of_app in Hd' as [Hd'|Hd'].
      * apply SFltb_le, (Hpre d'); [done..|]. by apply is_finite_not_nan.
      * apply elem_of_cons in Hd' as [->|Hd'].
        -- rewrite Hpx in Hpx'. injection Hpx' as <-. by apply SFleb_refl.
        -- apply SFltb_false_le; [by apply (Hpost d')|by apply (Hfin d)|done].
Qed.



(** C9: whatever the centre and the radius, [selectBestPatch] performs no
    read outside the image: a candidate that passes the guard satisfies
    [0 <= x0], [0 <= y0], [x1 <= image.cols] and [y1 <= image.rows], and
    every pixel of the view extracted for it can be read. *)
Theorem selectBestPatch_reads_in_bounds (h : heap) (image : Mat)
    (center : Point) (radius : Z) :
  valid h image →
  selectBestPatch image center radius h ≠ Undefined ∧
  ∀ d, d ∈ kDirs →
    outOfBounds image (candidate center radius d) = false →
    (0 ≤ x0 (candidate center radius d) ∧
     0 ≤ y0 (candidate center radius d) ∧
     x1 (candidate center radius d) ≤ cols image ∧
     y1 (candidate center radius d) ≤ rows image) ∧
    ∀ v, patchView image (candidate center radius d) = Ok v →
         ∀ y x, (y < Z.to_nat (rows v))%nat → (x < Z.to_nat (cols v))%nat →
                is_Some (Mat_at h v y x).
Proof.
  intros Hv. split; [by apply selectBestPatch_not_Undefined|].
  intros d _ Hb. split.
  - unfold outOfBounds in Hb.
    rewrite !orb_false_iff, !Z.gtb_ltb, !Z.ltb_ge in Hb. lia.
  - intros v Hview.
    destruct (Mat_roi_valid h image v _ _ Hv Hview) as (_ & _ & Hc).
    by apply contents_is_Some.
Qed.
End Select.

(** Going through the eight directions of a membership in [kDirs]. *)
Ltac each_dir Hd :=
  unfold kDirs, specOrder in Hd;
  repeat (apply elem_of_cons in Hd as [->|Hd]);
  [..|by apply elem_of_nil in Hd].

(** The positions of the directions in [kDirs]; stated once, so that no
    proof has to compare two directions. *)
Lemma kDirs_elems :
  dir_E ∈ kDirs ∧ dir_SE ∈ kDirs ∧ dir_S ∈ kDirs ∧ dir_SW ∈ kDirs ∧
  dir_W ∈ kDirs ∧ dir_NW ∈ kDirs ∧ dir_N ∈ kDirs ∧ dir_NE ∈ kDirs.
Proof.
  split_and!;
    [apply (list_elem_of_lookup_2 kDirs 0 _ eq_refl)
    |apply (list_elem_of_lookup_2 kDirs 1 _ eq_refl)
    |apply (list_elem_of_lookup_2 kDirs 2 _ eq_refl)
    |apply (list_elem_of_lookup_2 kDirs 3 _ eq_refl)
    |apply (list_elem_of_lookup_2 kDirs 4 _ eq_refl)
    |apply (list_elem_of_lookup_2 kDirs 5 _ eq_refl)
    |apply (list_elem_of_lookup_2 kDirs 6 _ eq_refl)
    |apply (list_elem_of_lookup_2 kDirs 7 _ eq_refl)].
Qed.

Lemma specOrder_kDirs (d : Point2d) : d ∈ specOrder → d ∈ kDirs.
Proof.
  intros Hd.
  destruct kDirs_elems as (HE & HSE & HS & HSW & HW & HNW & HN & HNE).
  unfold specOrder in Hd.
  repeat (apply elem_of_cons in Hd as [->|Hd]);
    [exact HN|exact HNE|exact HE|exact HSE|exact HS|exact HSW|exact HW
    |exact HNW|by apply elem_of_nil in Hd].
Qed.

(** The scores of concrete candidates are numbers, by evaluation. *)
Ltac finite_by_compute :=
  let d := fresh "d" in
  let px := fresh "px" in
  let Hd := fresh "Hd" in
  let Hpx := fresh "Hpx" in
  intros d px Hd Hpx; each_dir Hd;
  vm_compute in Hpx; first [discriminate Hpx|injection Hpx as <-];
  vm_compute; reflexivity.

Ltac dirs_by_compute :=
  let d := fresh "d" in
  let Hd := fresh "Hd" in
  intros d Hd; each_dir Hd; vm_compute; reflexivity.

Lemma selectBestPatch_first_minimal_witness :
  ∃ d px best h',
    @selectBestPatch ref32 cx_image cx_center 1 cx_store = Ok (best, h') ∧
    contents h' best = Some px ∧
    @firstMinimalIn ref32 cx_store cx_image cx_center 1 kDirs d px ∧
    (∀ d', d' ∈ kDirs →
       ∃ px', candidatePixels cx_store cx_image cx_center 1 d' = Some px' ∧
              SFleb (@patchVariance ref32 px) (@patchVariance ref32 px') = true).
Proof.
  apply (@selectBestPatch_first_minimal ref32 cx_store cx_image cx_center 1).
  - valid_by_compute.
  - lia.
  - dirs_by_compute.
  - dirs_by_compute.
  - finite_by_compute.
Defined.

(** On the 7x7 image [cx_image] the eight candidates around the centre
    have one and the same V plane, hence one and the same score. *)
Lemma cx_tied `{Imgproc} (d : Point2d) (px : Grid Vec3b) :
  d ∈ kDirs → candidatePixels cx_store cx_image cx_center 1 d = Some px →
  patchVariance px = patchVariance (replicate 3 (replicate 3 cx_px0)).
Proof.
  intros Hd Hpx. unfold patchVariance.
  enough (valueChannel px = valueChannel (replicate 3 (replicate 3 cx_px0)))
    as -> by done.
  each_dir Hd; vm_compute in Hpx; injection Hpx as <-; vm_compute; reflexivity.
Qed.

(** C1, as stated, fails: on a 7x7 image whose V plane is uniform all
    candidates score the same, whatever the kernels compute; the N
    candidate comes first in the order N, NE, E, SE, S, SW, W, NW, and
    the patch returned is the E candidate, whose pixels differ from those
    of the N candidate (or no patch at all, if that score is not below
    infinity). *)
Lemma selectBestPatch_spec_order_counterexample :
  ¬ ∃ ip : Imgproc,
      ∃ d px best h',
        @selectBestPatch ip cx_image cx_center 1 cx_store = Ok (best, h') ∧
        contents h' best = Some px ∧
        @firstMinimalIn ip cx_store cx_image cx_center 1 specOrder d px.
Proof.
  intros (ip & d & px & best & h' & Hsel & Hc & pre & post & Hsplit & Hpx
          & Hpre & _).
  assert (Hv : valid cx_store cx_image) by valid_by_compute.
  destruct kDirs_elems as (HEk & _ & _ & _ & _ & _ & HNk & _).
  assert (HN : candidatePixels cx_store cx_image cx_center 1 dir_N
               = Some (replicate 3 (replicate 3 cx_px0)))
    by (vm_compute; reflexivity).
  assert (HE : ∃ pxE, candidatePixels cx_store cx_image cx_center 1 dir_E
                      = Some pxE ∧ pxE ≠ replicate 3 (replicate 3 cx_px0)).
  { eexists. split; [vm_compute; reflexivity|]. vm_compute. discriminate. }
  destruct HE as (pxE & HE & HneE).
  assert (Hdk : d ∈ kDirs).
  { apply specOrder_kDirs. rewrite Hsplit. apply elem_of_app. right.
    apply list_elem_of_here. }
  pose proof (cx_tied d px Hdk Hpx) as Hs.
  (* the first direction of the stated order is N *)
  assert (Hpx_eq : px = replicate 3 (replicate 3 cx_px0)).
  { destruct pre as [|d0 pre]; cbn [app] in Hsplit;
      unfold specOrder in Hsplit; injection Hsplit as Hhead Htail.
    - rewrite <- Hhead, HN in Hpx. congruence.
    - pose proof (Hpre d0 (replicate 3 (replicate 3 cx_px0))
                    ltac:(apply list_elem_of_here)) as Hp.
      rewrite <- Hhead in Hp. specialize (Hp HN).
      rewrite Hs, SFltb_irrefl in Hp. discriminate Hp. }
  subst px.
  (* the patch returned is that of E, or none *)
  destruct (selectBestPatch_spec cx_store cx_image cx_center 1 Hv)
    as [[Ht _]|(best' & k & Hok & Hcases)]; [congruence|].
  assert (Hbh : best = best' ∧ h' = cx_store ++ k) by (split; congruence).
  destruct Hbh as [Hb Hh]. rewrite Hb, Hh in Hc. clear Hsel Hok Hb Hh.
  destruct Hcases as [(Hd & _ & _)|Hchosen].
  { rewrite Hd, contents_default in Hc. vm_compute in Hc. discriminate Hc. }
  destruct Hchosen as (pre2 & d2 & post2 & px2 & v & a & Hsplit2 & Hpx2 & _ & _
                       & _ & _ & Hc2 & _ & Hlt & Hpre2 & _).
  assert (Hpx2_eq : px2 = replicate 3 (replicate 3 cx_px0)) by congruence.
  destruct pre2 as [|d0 pre2]; cbn [app] in Hsplit2;
    unfold kDirs in Hsplit2; injection Hsplit2 as Hhead Htail.
  - rewrite <- Hhead, HE in Hpx2. apply HneE. congruence.
  - pose proof (Hpre2 d0 pxE ltac:(apply list_elem_of_here)) as Hp.
    rewrite <- Hhead in Hp. specialize (Hp HE). clear Hpre2.
    rename Hp into Hpre2.
    assert (Hd2k : d2 ∈ kDirs).
    { unfold kDirs. apply list_elem_of_further. rewrite Htail.
      apply elem_of_app. right. apply list_elem_of_here. }
    rewrite (cx_tied dir_E pxE HEk HE) in Hpre2.
    rewrite (cx_tied d2 px2 Hd2k Hpx2) in Hpre2, Hlt.
    rewrite SFltb_irrefl in Hpre2.
    enough (false = true) as Habs by discriminate Habs.
    apply Hpre2. by apply SFltb_not_nan in Hlt.
Qed.




Lemma selectBestPatch_reads_in_bounds_witness :
  @selectBestPatch ref32 cx_image (mkPoint 6 0) 1 cx_store ≠ Undefined ∧
  ∀ d, d ∈ kDirs →
    outOfBounds cx_image (candidate (mkPoint 6 0) 1 d) = false →
    (0 ≤ x0 (candidate (mkPoint 6 0) 1 d) ∧
     0 ≤ y0 (candidate (mkPoint 6 0) 1 d) ∧
     x1 (candidate (mkPoint 6 0) 1 d) ≤ cols cx_image ∧
     y1 (candidate (mkPoint 6 0) 1 d) ≤ rows cx_image) ∧
    ∀ v, patchView cx_image (candidate (mkPoint 6 0) 1 d) = Ok v →
         ∀ y x, (y < Z.to_nat (rows v))%nat → (x < Z.to_nat (cols v))%nat →
                is_Some (Mat_at cx_store v y x).
Proof.
  apply (@selectBestPatch_reads_in_bounds ref32 cx_store cx_image (mkPoint 6 0) 1).
  valid_by_compute.
Defined.

(** ** Writing through a header *)

Lemma write_row_lookup {A} (row new : list A) (ox x : nat) :
  (ox ≤ length row)%nat → (x < length new)%nat →
  write_row row ox new !! (ox + x)%nat = new !! x.
Proof.
  intros Hox Hx. unfold write_row.
  rewrite lookup_app_r by (rewrite length_take; lia).
  rewrite length_take, Nat.min_l by done.
  replace (ox + x - ox)%nat with x by lia.
  by rewrite lookup_app_l.
Qed.

Lemma write_window_lookup {A} (buf new : Grid A) (oy ox y : nat)
    (brow nrow : list A) :
  buf !! (oy + y)%nat = Some brow → new !! y = Some nrow →
  (oy + length new ≤ length buf)%nat →
  write_window buf oy ox new !! (oy + y)%nat = Some (write_row brow ox nrow).
Proof.
  intros Hb Hn Hlen. unfold write_window.
  pose proof (lookup_lt_Some _ _ _ Hn) as Hy.
  rewrite lookup_app_r by (rewrite length_take; lia).
  rewrite length_take, Nat.min_l by lia.
  replace (oy + y - oy)%nat with y by lia.
  rewrite lookup_app_l.
  - rewrite lookup_zip_with, lookup_take_lt, lookup_drop, Hb, Hn by done.
    done.
  - rewrite length_zip_with, length_take, length_drop. lia.
Qed.

Lemma Mat_write_contents (h : heap) (m : Mat) (old new : Grid Vec3b) (a : nat) :
  contents h m = Some old → data m = Some a →
  0 < rows m → 0 < cols m →
  shape (Z.to_nat (rows m)) (Z.to_nat (cols m)) new →
  ∃ buf,
    h !! a = Some buf ∧
    Mat_write m new h = Ok (<[a := write_window buf (offy m) (offx m) new]> h) ∧
    contents (<[a := write_window buf (offy m) (offx m) new]> h) m = Some new.
Proof.
  intros Hold Ha Hr Hc [Hlen Hrows].
  assert (Hv : valid h m) by (split_and!; [lia..|by eexists]).
  destruct (valid_data h m Hv Hr Hc) as (a' & buf & Ha' & Hbuf).
  assert (a' = a) as -> by congruence.
  exists buf. split; [done|]. split.
  { unfold Mat_write. by rewrite Ha, Hold, Hbuf. }
  apply contents_Some in Hold as [Holdlen Hold].
  assert (Hread : ∀ y x, (y < Z.to_nat (rows m))%nat →
            (x < Z.to_nat (cols m))%nat →
            ∃ brow, buf !! (offy m + y)%nat = Some brow ∧
                    (offx m + x < length brow)%nat).
  { intros y x Hy Hx. destruct (Hold y Hy) as (orow & Horow & Hol & Hat).
    specialize (Hat x Hx). unfold Mat_at in Hat. rewrite Ha in Hat.
    simpl in Hat. rewrite Hbuf in Hat. simpl in Hat.
    destruct (buf !! (offy m + y)%nat) as [brow|]; simpl in Hat.
    - exists brow. split; [done|]. apply lookup_lt_is_Some.
      rewrite Hat. apply lookup_lt_is_Some_2. lia.
    - symmetry in Hat. apply lookup_ge_None in Hat. lia. }
  apply contents_Some. split; [done|]. intros y Hy.
  destruct (lookup_lt_is_Some_2 new y) as [nrow Hnrow]; [lia|].
  pose proof (Hrows nrow (list_elem_of_lookup_2 _ _ _ Hnrow)) as Hnl.
  exists nrow. split; [done|]. split; [done|]. intros x Hx.
  destruct (Hread y x Hy Hx) as (brow & Hbrow & Hbl).
  unfold Mat_at. rewrite Ha. simpl.
  rewrite list_lookup_insert_eq by (by eapply lookup_lt_Some). simpl.
  rewrite (write_window_lookup buf new _ _ y brow nrow Hbrow Hnrow).
  - simpl. apply write_row_lookup; lia.
  - destruct (Hread (Z.to_nat (rows m) - 1)%nat 0%nat) as (lrow & Hl & _);
      [lia..|].
    apply lookup_lt_Some in Hl. lia.
Qed.

Lemma contents_insert_ne (h : heap) (m : Mat) (px : Grid Vec3b) (a b : nat)
    (buf : Grid Vec3b) :
  contents h m = Some px → data m = Some b → a ≠ b →
  contents (<[a := buf]> h) m = Some px.
Proof.
  intros Hpx Hb Hne. apply (contents_frame h); [done|].
  intros b' buf' Hb' Hl. assert (b' = b) as -> by congruence.
  by rewrite list_lookup_insert_ne.
Qed.

(** ** The callback when no donor is found *)

Lemma visit_cases `{Imgproc} (image : Mat) (center : Point) (radius : Z)
    (s s1 : Search) (h h1 : heap) (d : Point2d) :
  visit image center radius (s, h) d = Ok (s1, h1) →
  (s1 = s ∧ h1 = h) ∨ Mat_empty (bestPatch s1) = false.
Proof.
  unfold visit. destruct (outOfBounds _ _); [by intros [= <- <-]; left|].
  destruct (patchView _ _) as [v| |]; [|done..]. simpl.
  unfold computePatchVariance.
  destruct (Mat_empty v) eqn:Hne; [done|].
  destruct (contents h v) as [px|] eqn:Hpx; [|done]. simpl.
  destruct (SFltb _ _); [|by intros [= <- <-]; left].
  rewrite (clone_Ok _ _ _ Hne Hpx). simpl. intros [= <- <-]. right.
  by apply Mat_empty_fresh.
Qed.

Lemma scan_keeps_donor `{Imgproc} (image : Mat) (center : Point) (radius : Z)
    (dirs : list Point2d) : ∀ s s' h h',
  scan image center radius (s, h) dirs = Ok (s', h') →
  Mat_empty (bestPatch s) = false → Mat_empty (bestPatch s') = false.
Proof.
  induction dirs as [|d dirs IH]; intros s s' h h'; cbn [scan].
  - by intros [= <- <-].
  - destruct (visit image center radius (s, h) d) as [[s1 h1]| |] eqn:Hv;
      [|done..].
    simpl. intros Hscan Hne. apply (IH _ _ _ _ Hscan).
    by destruct (visit_cases _ _ _ _ _ _ _ _ Hv) as [[-> _]|?].
Qed.

Lemma scan_no_donor `{Imgproc} (image : Mat) (center : Point) (radius : Z)
    (dirs : list Point2d) : ∀ s s' h h',
  scan image center radius (s, h) dirs = Ok (s', h') →
  Mat_empty (bestPatch s') = true → s' = s ∧ h' = h.
Proof.
  induction dirs as [|d dirs IH]; intros s s' h h'; cbn [scan].
  - by intros [= <- <-].
  - destruct (visit image center radius (s, h) d) as [[s1 h1]| |] eqn:Hv;
      [|done..].
    simpl. intros Hscan He.
    destruct (visit_cases _ _ _ _ _ _ _ _ Hv) as [[-> ->]|Hne].
    + by apply IH.
    + by rewrite (scan_keeps_donor _ _ _ _ _ _ _ _ Hscan Hne) in He.
Qed.

Lemma selectBestPatch_no_donor_store `{Imgproc} (image : Mat) (center : Point)
    (radius : Z) (h h' : heap) (best : Mat) :
  selectBestPatch image center radius h = Ok (best, h') →
  Mat_empty best = true → h' = h.
Proof.
  unfold selectBestPatch.
  destruct (scan _ _ _ _ _) as [[s h1]| |] eqn:Hscan; [|done..].
  simpl. intros [= <- <-] He.
  by destruct (scan_no_donor _ _ _ _ _ _ _ _ Hscan He).
Qed.

(** C3: when [selectBestPatch] finds no donor for a click, the callback
    returns normally and leaves the working image and the whole store as
    they were, and the loop goes on with the remaining events exactly as
    if the click had not happened. *)
Theorem onMouse_no_donor `{Imgproc} `{Photo} (g : Mat) (h h' : heap) (x y : Z)
    (best : Mat) :
  selectBestPatch g (mkPoint x y) kDefaultRad h = Ok (best, h') →
  Mat_empty best = true →
  onMouse EVENT_LBUTTONDOWN x y g h = Ok (g, h) ∧
  ∀ s events,
    g_sourceImage s = g → store s = h →
    loop s (MouseEvent EVENT_LBUTTONDOWN x y :: events) = loop s events.
Proof.
  intros Hsel He.
  pose proof (selectBestPatch_no_donor_store _ _ _ _ _ _ Hsel He) as ->.
  assert (Hm : onMouse EVENT_LBUTTONDOWN x y g h = Ok (g, h)).
  { unfold onMouse. rewrite Z.eqb_refl. cbn [negb]. rewrite Hsel. simpl.
    by rewrite He. }
  split; [done|]. intros [g' o' h'] events Hg Hh. simpl in Hg, Hh. subst.
  cbn [loop loop_step g_sourceImage store original]. rewrite Hm. done.
Qed.

Lemma onMouse_no_donor_witness :
  @onMouse ref32 paste EVENT_LBUTTONDOWN 3 3 cx_image cx_store
    = Ok (cx_image, cx_store) ∧
  ∀ s events,
    g_sourceImage s = cx_image → store s = cx_store →
    @loop ref32 paste s (MouseEvent EVENT_LBUTTONDOWN 3 3 :: events)
    = @loop ref32 paste s events.
Proof.
  apply (@onMouse_no_donor ref32 paste cx_image cx_store cx_store 3 3 Mat_default).
  - vm_compute. reflexivity.
  - reflexivity.
Defined.

(** ** The loop of runBlemishRemoval *)

Lemma Mat_assign_in_place (h : heap) (g : Mat) (old new : Grid Vec3b) (a : nat) :
  contents h g = Some old → data g = Some a →
  0 < rows g → 0 < cols g →
  shape (Z.to_nat (rows g)) (Z.to_nat (cols g)) new →
  ∃ buf,
    h !! a = Some buf ∧
    Mat_assign g (rows g) (cols g) new h =
      Ok (g, <[a := write_window buf (offy g) (offx g) new]> h) ∧
    contents (<[a := write_window buf (offy g) (offx g) new]> h) g = Some new.
Proof.
  intros Hold Ha Hr Hc Hshape.
  destruct (Mat_write_contents h g old new a Hold Ha Hr Hc Hshape)
    as (buf & Hbuf & Hw & Hnew).
  exists buf. split; [done|]. split; [|done].
  unfold Mat_assign. rewrite !Z.eqb_refl, Ha.
  rewrite bool_decide_eq_true_2 by done. cbn [andb]. by rewrite Hw.
Qed.

Lemma imap_shape {A B} (f : nat → nat → B) (g : Grid A) (R C : nat) :
  shape R C g → shape R C (imap (λ y row, imap (λ x _, f y x) row) g).
Proof.
  intros [Hlen Hrows]. split; [by rewrite length_imap|].
  intros row [y Hy]%list_elem_of_lookup.
  rewrite list_lookup_imap in Hy.
  destruct (g !! y) as [row'|] eqn:Hrow'; [|done]. injection Hy as <-.
  rewrite length_imap. apply Hrows. by eapply list_elem_of_lookup_2.
Qed.

Section Loop.
Context `{Imgproc} `{Photo}.

Lemma onMouse_inv (px : Grid Vec3b) (s : Session) (event x y : Z)
    (g : Mat) (h : heap) :
  session_inv px s →
  onMouse event x y (g_sourceImage s) (store s) = Ok (g, h) →
  session_inv px (mkSession g (original s) h).
Proof.
  intros Hinv.
  pose proof Hinv as (Ho & [gpx Hg] & (ag & ao & Hag & Hao & Hne) & Hrows
                      & Hcols & Hr & Hc).
  unfold onMouse. destruct (negb (event =? EVENT_LBUTTONDOWN)).
  { intros [= <- <-]. by destruct s. }
  assert (Hv : valid (store s) (g_sourceImage s)).
  { split_and!; [lia..|by eexists]. }
  destruct (selectBestPatch _ _ _ _) as [[patch h1]| |] eqn:Hsel; [|done..].
  destruct (selectBestPatch_extends _ _ _ _ _ _ Hv Hsel) as [k ->].
  assert (Hframe : ∀ m pm, contents (store s) m = Some pm →
                           contents (store s ++ k) m = Some pm)
    by (intros m pm; apply contents_app).
  simpl.
  destruct (Mat_empty patch).
  { intros [= <- <-]. unfold session_inv. simpl.
    split_and!; [by apply Hframe| |by exists ag, ao|done..].
    exists gpx. by apply Hframe. }
  unfold seamlessClone.
  destruct (contents (store s ++ k) patch) as [spx|]; [|done].
  rewrite (Hframe _ _ Hg).
  destruct (seamlessClone_px _ _ _ _) as [f|]; [|done].
  destruct (Mat_assign_in_place (store s ++ k) (g_sourceImage s) gpx
              (imap (λ y row, imap (λ x _, f y x) row) gpx) ag)
    as (buf & Hbuf & -> & Hnew);
    [by apply Hframe|done|lia..| |].
  { apply imap_shape. eapply contents_shape, Hg. }
  intros [= <- <-]. unfold session_inv. simpl.
  split_and!; [|by eexists|by exists ag, ao|done..].
  eapply contents_insert_ne; [by apply Hframe|done..].
Qed.

Lemma reset_restores (px : Grid Vec3b) (s : Session) :
  session_inv px s →
  ∃ h,
    copyTo (original s) (g_sourceImage s) (store s) = Ok (g_sourceImage s, h) ∧
    contents h (g_sourceImage s) = Some px ∧
    session_inv px (mkSession (g_sourceImage s) (original s) h).
Proof.
  intros (Ho & [gpx Hg] & (ag & ao & Hag & Hao & Hne) & Hrows & Hcols
          & Hr & Hc).
  destruct (Mat_assign_in_place (store s) (g_sourceImage s) gpx px ag)
    as (buf & Hbuf & Hassign & Hnew); [done|done|lia..| |].
  { rewrite Hrows, Hcols. eapply contents_shape, Ho. }
  eexists. split_and!.
  - unfold copyTo, Mat_empty. rewrite Hao, Ho.
    assert ((rows (original s) * cols (original s) =? 0) = false) as ->
      by (apply Z.eqb_neq; nia).
    rewrite <- Hrows, <- Hcols. exact Hassign.
  - done.
  - unfold session_inv. simpl.
    split_and!; [|by eexists|by exists ag, ao|done..].
    by eapply contents_insert_ne.
Qed.

Lemma loop_step_inv (px : Grid Vec3b) (s s' : Session) (e : Event) :
  session_inv px s → loop_step s e = Ok (Looping s') → session_inv px s'.
Proof.
  intros Hinv. destruct e as [event x y|ret]; cbn [loop_step].
  - destruct (onMouse event x y (g_sourceImage s) (store s))
      as [[g h]| |] eqn:Hm; [|done..].
    simpl. intros [= <-]. by eapply onMouse_inv.
  - destruct (Z.land ret 255 =? key_Esc); [done|].
    destruct ((Z.land ret 255 =? key_c) || (Z.land ret 255 =? key_C)).
    + destruct (reset_restores px s Hinv) as (h & -> & _ & Hinv').
      simpl. by intros [= <-].
    + by intros [= <-].
Qed.

Lemma loop_inv (px : Grid Vec3b) (events : list Event) : ∀ s s',
  session_inv px s → loop s events = Ok (Looping s') → session_inv px s'.
Proof.
  induction events as [|e events IH]; intros s s' Hinv; cbn [loop].
  - by intros [= <-].
  - destruct (loop_step s e) as [[s1|s1]| |] eqn:Hstep; [|done..].
    simpl. intros Hloop. apply (IH s1); [|done].
    by eapply loop_step_inv.
Qed.

Lemma loop_app (events events' : list Event) : ∀ s s',
  loop s events = Ok (Looping s') →
  loop s (events ++ events') = loop s' events'.
Proof.
  induction events as [|e events IH]; intros s s'; cbn [loop app].
  - by intros [= <-].
  - destruct (loop_step s e) as [[s1|s1]| |]; [|done..].
    simpl. apply IH.
Qed.

Lemma runBlemishRemoval_start (h : heap) (image : Mat) (px : Grid Vec3b) :
  valid h image → Mat_empty image = false → contents h image = Some px →
  ∃ s0, session_inv px s0 ∧
        ∀ events, runBlemishRemoval image h events = loop s0 events.
Proof.
  intros (Hr & Hc & _) Hne Hpx.
  exists (mkSession (fresh h image) (fresh (h ++ [px]) image)
                    ((h ++ [px]) ++ [px])).
  split.
  - unfold Mat_empty in Hne. destruct (data image); [|done].
    apply Z.eqb_neq in Hne.
    unfold session_inv. simpl.
    split_and!; [| |by exists (length h), (length (h ++ [px]));
                     rewrite length_app; simpl; split_and!; [done..|lia]
                 |done|done|nia|nia].
    + apply contents_fresh. by apply contents_app.
    + exists px. by apply contents_app, contents_fresh.
  - intros events. unfold runBlemishRemoval.
    rewrite (clone_Ok _ _ _ Hne Hpx). simpl.
    by rewrite (clone_Ok _ _ _ Hne (contents_app _ [px] _ _ Hpx)).
Qed.

(** C10: while the loop of [runBlemishRemoval] is running, whatever
    clicks and keys came before, a [waitKey] that returns 'c' or 'C'
    leaves [g_sourceImage] with exactly the pixels of the image the
    function was called with. *)
Theorem runBlemishRemoval_reset (h : heap) (image : Mat)
    (events : list Event) (s : Session) (ret : Z) :
  valid h image → Mat_empty image = false →
  runBlemishRemoval image h events = Ok (Looping s) →
  Z.land ret 255 = key_c ∨ Z.land ret 255 = key_C →
  ∃ s',
    loop_step s (WaitKey ret) = Ok (Looping s') ∧
    contents (store s') (g_sourceImage s') = contents h image ∧
    runBlemishRemoval image h (events ++ [WaitKey ret]) = Ok (Looping s').
Proof.
  intros Hv Hne Hrun Hkey.
  pose proof Hv as (_ & _ & [px Hpx]).
  destruct (runBlemishRemoval_start h image px Hv Hne Hpx)
    as (s0 & Hinv0 & Hstart).
  rewrite Hstart in Hrun.
  pose proof (loop_inv px events s0 s Hinv0 Hrun) as Hinv.
  destruct (reset_restores px s Hinv) as (h' & Hcopy & Hc & _).
  assert (Hstep : loop_step s (WaitKey ret)
                  = Ok (Looping (mkSession (g_sourceImage s) (original s) h'))).
  { cbn [loop_step].
    assert ((Z.land ret 255 =? key_Esc) = false) as ->.
    { apply Z.eqb_neq. unfold key_Esc, key_c, key_C in *. lia. }
    assert ((Z.land ret 255 =? key_c) || (Z.land ret 255 =? key_C) = true)
      as ->.
    { apply orb_true_iff. rewrite !Z.eqb_eq. done. }
    by rewrite Hcopy. }
  eexists. split; [exact Hstep|]. split; [by rewrite Hpx|].
  rewrite Hstart, (loop_app _ _ _ _ Hrun). cbn [loop].
  by rewrite Hstep.
Qed.
End Loop.

Lemma runBlemishRemoval_reset_witness :
  ∃ s s',
    @runBlemishRemoval ref32 paste ex_image ex_store ex_events = Ok (Looping s) ∧
    @loop_step ref32 paste s (WaitKey 99) = Ok (Looping s') ∧
    contents (store s') (g_sourceImage s') = contents ex_store ex_image ∧
    @runBlemishRemoval ref32 paste ex_image ex_store (ex_events ++ [WaitKey 99])
    = Ok (Looping s').
Proof.
  assert (Hrun : ∃ s, @runBlemishRemoval ref32 paste ex_image ex_store ex_events
                      = Ok (Looping s)).
  { eexists. vm_compute. reflexivity. }
  destruct Hrun as [s Hrun]. exists s.
  destruct (@runBlemishRemoval_reset ref32 paste ex_store ex_image ex_events s 99)
    as (s' & Hstep & Hc & Hrun').
  - valid_by_compute.
  - reflexivity.
  - exact Hrun.
  - left. reflexivity.
  - exists s'. split; [exact Hrun|]. split; [exact Hstep|].
    split; [exact Hc|exact Hrun'].
Defined.

(** ** More on selectBestPatch *)

Section More.
Context `{Imgproc}.

Lemma selectBestPatch_square (h h' : heap) (image best : Mat)
    (center : Point) (radius : Z) :
  valid h image → 0 ≤ radius < 2 ^ 31 →
  selectBestPatch image center radius h = Ok (best, h') →
  best = Mat_default ∨
  ∃ a px, best = mkMat (Some a) 0 0 (2 * radius + 1) (2 * radius + 1) ∧
          (length h ≤ a)%nat ∧ h !! a = None ∧
          h' !! a = Some px ∧ contents h' best = Some px ∧
          shape (Z.to_nat (2 * radius + 1)) (Z.to_nat (2 * radius + 1)) px.
Proof.
  intros Hv Hr Hsel.
  destruct (selectBestPatch_spec h image center radius Hv)
    as [[Ht _]|(best' & k & Hok & Hcases)]; [congruence|].
  assert (best = best' ∧ h' = h ++ k) as [-> ->] by (split; congruence).
  destruct Hcases as [(-> & _)|Hchosen]; [by left|right].
  destruct Hchosen as (pre & d & post & px & v & a & _ & Hpx & Hview & -> & Hlen
                       & Hl & Hc & _).
  destruct (view_size_small image v center radius d Hr Hview) as [Hrows Hcols].
  exists a, px. rewrite Hrows, Hcols in *.
  split_and!; [done..|by apply lookup_ge_None|done|done|].
  apply contents_shape in Hc. done.
Qed.


(** X2: an image narrower or lower than the patch has no donor anywhere
    the candidate arithmetic does not overflow. *)
Theorem selectBestPatch_small_image (h : heap) (image : Mat) (center : Point)
    (radius : Z) :
  0 ≤ radius →
  (∀ d, d ∈ kDirs → no_overflow center radius d = true) →
  cols image < 2 * radius + 1 ∨ rows image < 2 * radius + 1 →
  selectBestPatch image center radius h = Ok (Mat_default, h).
Proof.
  intros Hr Hno Hsmall.
  assert (Hskip : ∀ d, d ∈ kDirs → inBounds image center radius d = false).
  { intros d Hd. unfold inBounds, outOfBounds.
    rewrite (candidate_no_overflow _ _ _ (Hno d Hd)). simpl.
    rewrite negb_false_iff, !orb_true_iff, !Z.ltb_lt, !Z.gtb_ltb, !Z.ltb_lt.
    lia. }
  unfold selectBestPatch.
  assert (Hscan : ∀ dirs acc, (∀ d, d ∈ dirs → d ∈ kDirs) →
                    scan image center radius acc dirs = Ok acc).
  { induction dirs as [|d dirs IH]; intros acc Hin; [done|].
    cbn [scan].
    rewrite (visit_skip _ _ _ _ _ (Hskip d (Hin d ltac:(by left)))).
    apply IH. intros d' Hd'. apply Hin. by right. }
  by rewrite Hscan.
Qed.

(** ** Negative radius *)

Lemma negative_view_throws (image : Mat) (center : Point) (radius : Z)
    (d : Point2d) :
  radius < 0 → no_overflow center radius d = true →
  patchView image (candidate center radius d) = Throw.
Proof.
  intros Hr Hno.
  destruct (patchView image (candidate center radius d)) as [v| |] eqn:Hview;
    [|done|by apply Mat_roi_not_Undefined in Hview].
  apply patchView_Ok in Hview as (Hx & _).
  rewrite (candidate_no_overflow _ _ _ Hno) in Hx. simpl in Hx. lia.
Qed.

Lemma scan_negative_radius_throw (image : Mat) (center : Point) (radius : Z)
    (dirs : list Point2d) : ∀ acc,
  radius < 0 →
  (∀ d, d ∈ dirs → no_overflow center radius d = true) →
  (∃ d, d ∈ dirs ∧ inBounds image center radius d = true) →
  scan image center radius acc dirs = Throw.
Proof.
  intros acc Hr. induction dirs as [|d dirs IH]; intros Hno (d' & Hd' & Hb).
  { by apply elem_of_nil in Hd'. }
  cbn [scan].
  destruct (inBounds image center radius d) eqn:Hbd.
  - rewrite (visit_throw _ _ _ _ _ Hbd); [done|].
    apply negative_view_throws; [done|]. apply Hno. by left.
  - rewrite (visit_skip _ _ _ _ _ Hbd). simpl. apply IH.
    + intros d'' Hd''. apply Hno. by right.
    + apply elem_of_cons in Hd' as [->|Hd']; [congruence|]. by exists d'.
Qed.

Lemma scan_all_skipped (image : Mat) (center : Point) (radius : Z)
    (dirs : list Point2d) : ∀ acc,
  (∀ d, d ∈ dirs → inBounds image center radius d = false) →
  scan image center radius acc dirs = Ok acc.
Proof.
  induction dirs as [|d dirs IH]; intros acc Hall; [done|].
  cbn [scan]. rewrite (visit_skip _ _ _ _ _ (Hall d ltac:(by left))).
  simpl. apply IH. intros d' Hd'. apply Hall. by right.
Qed.

(** X3: with a negative radius, where the candidate arithmetic does not
    overflow, the guard can still let a candidate through, and the view
    built for it then fails its range assertion: the call throws as soon
    as one candidate passes the guard, and returns the default matrix
    otherwise. *)
Theorem selectBestPatch_negative_radius (h : heap) (image : Mat)
    (center : Point) (radius : Z) :
  radius < 0 →
  (∀ d, d ∈ kDirs → no_overflow center radius d = true) →
  ((∃ d, d ∈ kDirs ∧ inBounds image center radius d = true) →
   selectBestPatch image center radius h = Throw) ∧
  ((∀ d, d ∈ kDirs → inBounds image center radius d = false) →
   selectBestPatch image center radius h = Ok (Mat_default, h)).
Proof.
  intros Hr Hno. unfold selectBestPatch. split.
  - intros Hex. by rewrite (scan_negative_radius_throw _ _ _ _ _ Hr Hno Hex).
  - intros Hall. by rewrite (scan_all_skipped _ _ _ _ _ Hall).
Qed.

(** ** Radius 0 *)

Lemma offsetCoord_radius_0 (c : Z) (d : spec_float) :
  int_range c → is_finite d = true → offsetCoord c d 0 = c.
Proof.
  intros Hc Hd. unfold offsetCoord.
  apply double_to_int_holds; [done|]. by apply offsetDouble_radius_0.
Qed.

Lemma kDirs_finite (d : Point2d) :
  d ∈ kDirs → is_finite (d_x d) = true ∧ is_finite (d_y d) = true.
Proof.
  intros Hd. unfold kDirs in Hd.
  repeat (apply elem_of_cons in Hd as [->|Hd]);
    [..|by apply elem_of_nil in Hd]; split; vm_compute; reflexivity.
Qed.

Lemma candidate_radius_0 (center : Point) (d : Point2d) :
  int_range (pt_x center) → int_range (pt_y center) →
  int_range (pt_x center + 1) → int_range (pt_y center + 1) → d ∈ kDirs →
  candidate center 0 d =
  {| x0 := pt_x center; y0 := pt_y center;
     x1 := pt_x center + 1; y1 := pt_y center + 1 |}.
Proof.
  intros Hx Hy Hx1 Hy1 Hd.
  destruct (kDirs_finite d Hd) as [Hfx Hfy].
  unfold candidate, srcCenter, patchBounds, int_add, int_sub. cbn [pt_x pt_y].
  rewrite !offsetCoord_radius_0 by done.
  rewrite !Z.sub_0_r, !Z.add_0_r.
  rewrite (wrap_int _ Hx), (wrap_int _ Hy).
  by rewrite (wrap_int _ Hx1), (wrap_int _ Hy1).
Qed.

Lemma pixel_view (h : heap) (image v : Mat) (center : Point)
    (px : Grid Vec3b) :
  patchView image
    {| x0 := pt_x center; y0 := pt_y center;
       x1 := pt_x center + 1; y1 := pt_y center + 1 |} = Ok v →
  contents h v = Some px →
  ∃ p, px = [[p]] ∧
       Mat_at h image (Z.to_nat (pt_y center)) (Z.to_nat (pt_x center)) = Some p.
Proof.
  intros Hview Hpx. unfold patchView in Hview.
  apply Mat_roi_Ok in Hview as (_ & _ & ->). simpl in *.
  apply contents_Some in Hpx as [Hlen Hrows]. simpl in *.
  replace (Z.to_nat (pt_y center + 1 - pt_y center)) with 1%nat in * by lia.
  replace (Z.to_nat (pt_x center + 1 - pt_x center)) with 1%nat in * by lia.
  destruct (Hrows 0%nat ltac:(lia)) as (row & Hrow & Hl & Hat).
  specialize (Hat 0%nat ltac:(lia)).
  destruct px as [|row' [|]]; [done| |done]. simpl in Hrow.
  injection Hrow as ->.
  destruct row as [|p [|]]; [done| |done]. exists p. split; [done|].
  simpl in Hat. rewrite <- Hat. unfold Mat_at. simpl.
  rewrite !Nat.add_0_r. done.
Qed.

(** X4: with radius 0 the eight candidates all are the clicked pixel
    itself: for a centre inside the image the donor is that very pixel
    when its score is below infinity and the default matrix otherwise,
    and a centre outside the image has no donor. *)
Theorem selectBestPatch_radius_0 (h : heap) (image : Mat) (center : Point) :
  valid h image → int_range (pt_x center) → int_range (pt_y center) →
  int_range (pt_x center + 1) → int_range (pt_y center + 1) →
  (0 ≤ pt_x center < cols image ∧ 0 ≤ pt_y center < rows image →
   ∃ p,
     Mat_at h image (Z.to_nat (pt_y center)) (Z.to_nat (pt_x center)) = Some p ∧
     (SFltb (patchVariance [[p]]) infinity = true →
      ∃ best k, selectBestPatch image center 0 h = Ok (best, h ++ k) ∧
                contents (h ++ k) best = Some [[p]]) ∧
     (SFltb (patchVariance [[p]]) infinity = false →
      selectBestPatch image center 0 h = Ok (Mat_default, h))) ∧
  (¬ (0 ≤ pt_x center < cols image ∧ 0 ≤ pt_y center < rows image) →
   selectBestPatch image center 0 h = Ok (Mat_default, h)).
Proof.
  intros Hv Hx Hy Hx1 Hy1.
  assert (Hguard : ∀ d, d ∈ kDirs →
            inBounds image center 0 d = true ↔
            0 ≤ pt_x center < cols image ∧ 0 ≤ pt_y center < rows image).
  { intros d Hd. unfold inBounds.
    rewrite (candidate_radius_0 _ _ Hx Hy Hx1 Hy1 Hd).
    unfold outOfBounds. simpl.
    rewrite negb_true_iff, !orb_false_iff, !Z.gtb_ltb, !Z.ltb_ge. lia. }
  split.
  - intros Hin.
    assert (Hpix : ∀ d px, d ∈ kDirs →
              candidatePixels h image center 0 d = Some px →
              ∃ p, px = [[p]] ∧
                   Mat_at h image (Z.to_nat (pt_y center))
                          (Z.to_nat (pt_x center)) = Some p).
    { intros d px Hd Hpx. unfold candidatePixels in Hpx.
      rewrite (candidate_radius_0 _ _ Hx Hy Hx1 Hy1 Hd) in Hpx.
      destruct (patchView image _) as [v| |] eqn:Hview; [|done..].
      by apply (pixel_view h image v center px Hview). }
    assert (HE : dir_E ∈ kDirs) by (by left).
    assert (Hview : ∃ v, patchView image (candidate center 0 dir_E) = Ok v).
    { destruct (patchView image (candidate center 0 dir_E)) as [v| |] eqn:Hview;
        [by eexists| |by apply Mat_roi_not_Undefined in Hview].
      exfalso. revert Hview.
      rewrite (candidate_radius_0 _ _ Hx Hy Hx1 Hy1 HE).
      unfold patchView, Mat_roi. simpl.
      case_match eqn:Hc; [done|]. intros _. revert Hc.
      rewrite !andb_false_iff, !Z.leb_gt. lia. }
    destruct Hview as [v Hview].
    destruct (visit_scored h image v center 0 dir_E Hv Hview)
      as (pxE & HpxE & _).
    destruct (Hpix dir_E pxE HE HpxE) as (p & -> & Hp).
    exists p. split; [done|].
    destruct (selectBestPatch_spec h image center 0 Hv)
      as [[_ (d & Hd & Hb & Ht)]|(best & k & Hok & Hcases)].
    { exfalso.
      destruct (inBounds_patchView image center 0 d ltac:(lia)) as [v' Hv'];
        [|done|congruence].
      unfold no_overflow.
      destruct (kDirs_finite d Hd) as [Hfx Hfy].
      pose proof (candidate_radius_0 _ _ Hx Hy Hx1 Hy1 Hd) as Hcand.
      unfold srcCenter. cbn [pt_x pt_y].
      rewrite !offsetCoord_radius_0 by done.
      rewrite !andb_true_iff, !in_int_range, !Z.sub_0_r, !Z.add_0_r.
      unfold cast_defined, offsetDouble.
      assert (Hdone : ∀ c f, int_range c → is_finite f = true →
                match truncate (binary64_add (int_to_double c)
                         (binary64_mul (binary64_mul f (int_to_double 0))
                            (int_to_double 2))) with
                | Some z => in_int z
                | None => false
                end = true).
      { intros c f Hc Hf.
        apply (cast_defined_holds _ c Hc).
        by apply offsetDouble_radius_0. }
      rewrite !Hdone by done.
      split_and!; done || (unfold int_range; lia). }
    split.
    + intros Hlt. exists best, k. split; [done|].
      destruct Hcases as [(_ & _ & Hnone)|Hchosen].
      * specialize (Hnone dir_E _ HE HpxE). congruence.
      * destruct Hchosen as (pre & d & post & px & v' & a & Hsplit & Hpx & _
                             & _ & _ & _ & Hc & _).
        assert (Hd : d ∈ kDirs).
        { rewrite Hsplit. apply elem_of_app. right. by left. }
        destruct (Hpix d px Hd Hpx) as (p' & -> & Hp').
        rewrite Hp in Hp'. by injection Hp' as <-.
    + intros Hlt.
      destruct Hcases as [(-> & -> & _)|Hchosen];
        [by rewrite app_nil_r in Hok|].
      destruct Hchosen as (pre & d & post & px & v' & a & Hsplit & Hpx & _
                           & _ & _ & _ & _ & _ & Hlt' & _).
      assert (Hd : d ∈ kDirs).
      { rewrite Hsplit. apply elem_of_app. right. by left. }
      destruct (Hpix d px Hd Hpx) as (p' & -> & Hp').
      rewrite Hp in Hp'. injection Hp' as <-. congruence.
  - intros Hout. unfold selectBestPatch.
    rewrite scan_all_skipped; [done|].
    intros d Hd. apply not_true_is_false. by rewrite (Hguard d Hd).
Qed.
End More.


Lemma selectBestPatch_small_image_witness :
  @selectBestPatch ref32 cx_image cx_center kDefaultRad cx_store
  = Ok (Mat_default, cx_store).
Proof.
  apply (@selectBestPatch_small_image ref32 cx_store cx_image cx_center
           kDefaultRad).
  - unfold kDefaultRad. lia.
  - dirs_by_compute.
  - left. unfold kDefaultRad. simpl. lia.
Defined.

Lemma selectBestPatch_negative_radius_witness :
  @selectBestPatch ref32 cx_image cx_center (-1) cx_store = Throw.
Proof.
  destruct (@selectBestPatch_negative_radius ref32 cx_store cx_image cx_center
              (-1)) as [Hthrow _]; [lia|dirs_by_compute|].
  apply Hthrow. exists dir_E. split; [apply kDirs_elems|].
  vm_compute. reflexivity.
Defined.

Lemma selectBestPatch_radius_0_witness :
  ∃ best k p,
    @selectBestPatch ref32 cx_image (mkPoint 5 3) 0 cx_store
    = Ok (best, cx_store ++ k) ∧
    Mat_at cx_store cx_image 3 5 = Some p ∧
    contents (cx_store ++ k) best = Some [[p]].
Proof.
  destruct (@selectBestPatch_radius_0 ref32 cx_store cx_image (mkPoint 5 3))
    as [Hin _].
  - valid_by_compute.
  - unfold int_range. simpl. lia.
  - unfold int_range. simpl. lia.
  - unfold int_range. simpl. lia.
  - unfold int_range. simpl. lia.
  - destruct Hin as (p & Hp & Hlt & _); [simpl; lia|].
    destruct Hlt as (best & k & Hok & Hc).
    + vm_compute in Hp. injection Hp as <-. vm_compute. reflexivity.
    + exists best, k, p. split_and!; [exact Hok|exact Hp|exact Hc].
Defined.

(** ** More on the loop *)

Lemma loop_step_irrelevant `{Imgproc} `{Photo} (s : Session) (e : Event) :
  relevant e = false → loop_step s e = Ok (Looping s).
Proof.
  destruct e as [event x y|ret]; cbn [relevant loop_step]; intros Hr.
  - unfold onMouse. rewrite Hr. cbn [negb]. simpl. by destruct s.
  - apply orb_false_elim in Hr as [Hr Hc]. apply orb_false_elim in Hr as [He Hc'].
    by rewrite He, Hc', Hc.
Qed.

(** X6: mouse events other than a left-button press, idle returns of
    [waitKey] and keys other than Esc, 'c' and 'C' change nothing: the
    loop behaves as if they had not occurred. *)
Theorem loop_ignores_irrelevant `{Imgproc} `{Photo} (events : list Event) : ∀ s,
  loop s events = loop s (List.filter relevant events).
Proof.
  induction events as [|e events IH]; intros s; [done|].
  cbn [List.filter]. destruct (relevant e) eqn:Hr.
  - cbn [loop]. destruct (loop_step s e) as [[s1|s1]| |]; [|done..].
    simpl. apply IH.
  - cbn [loop]. rewrite (loop_step_irrelevant s e Hr). simpl. apply IH.
Qed.

(** X7: Esc ends the loop with the session as it stands, whatever the bits of
    the key code above the low byte, and nothing that arrives later is
    looked at. *)
Theorem runBlemishRemoval_esc `{Imgproc} `{Photo} (image : Mat) (h : heap)
    (pre post : list Event) (s : Session) (ret : Z) :
  runBlemishRemoval image h pre = Ok (Looping s) →
  Z.land ret 255 = key_Esc →
  runBlemishRemoval image h (pre ++ WaitKey ret :: post) = Ok (Returned s).
Proof.
  unfold runBlemishRemoval.
  destruct (clone image h) as [[g h1]| |]; [|done..]. simpl.
  destruct (clone image h1) as [[o h2]| |]; [|done..]. simpl.
  intros Hrun Hkey. rewrite (loop_app _ _ _ _ Hrun).
  cbn [loop loop_step]. by rewrite Hkey, Z.eqb_refl.
Qed.

Lemma runBlemishRemoval_esc_witness :
  ∃ s,
    @runBlemishRemoval ref32 paste cx_image cx_store [MouseEvent 0 1 1]
      = Ok (Looping s) ∧
    @runBlemishRemoval ref32 paste cx_image cx_store
      ([MouseEvent 0 1 1] ++ WaitKey (27 + 256) :: [WaitKey 99])
      = Ok (Returned s).
Proof.
  assert (Hrun : ∃ s, @runBlemishRemoval ref32 paste cx_image cx_store
                        [MouseEvent 0 1 1] = Ok (Looping s)).
  { eexists. vm_compute. reflexivity. }
  destruct Hrun as [s Hrun]. exists s. split; [exact Hrun|].
  apply (@runBlemishRemoval_esc ref32 paste cx_image cx_store [MouseEvent 0 1 1]
           [WaitKey 99] s (27 + 256)); [exact Hrun|reflexivity].
Defined.

(** ** What the loop writes to *)

Lemma untouched_refl (ag : nat) (h : heap) : untouched ag h h.
Proof. by intros a buf _ ?. Qed.

Lemma untouched_trans (ag : nat) (h1 h2 h3 : heap) :
  untouched ag h1 h2 → untouched ag h2 h3 → untouched ag h1 h3.
Proof. intros H12 H23 a buf Ha Hl. by apply H23, H12. Qed.

Lemma untouched_app (ag : nat) (h k : heap) : untouched ag h (h ++ k).
Proof. intros a buf _ Hl. by apply lookup_app_l_Some. Qed.

Lemma untouched_insert (ag : nat) (h : heap) (buf : Grid Vec3b) :
  untouched ag h (<[ag := buf]> h).
Proof. intros a b Ha Hl. by rewrite list_lookup_insert_ne. Qed.

Lemma runBlemishRemoval_unfold `{Imgproc} `{Photo} (h : heap) (image : Mat)
    (px : Grid Vec3b) :
  valid h image → Mat_empty image = false → contents h image = Some px →
  session_inv px (start_session h image px) ∧
  contents (store (start_session h image px))
           (g_sourceImage (start_session h image px)) = Some px ∧
  ∀ events,
    runBlemishRemoval image h events = loop (start_session h image px) events.
Proof.
  intros (Hr & Hc & _) Hne Hpx. unfold start_session.
  assert (Hg : contents ((h ++ [px]) ++ [px]) (fresh h image) = Some px)
    by (by apply contents_app, contents_fresh).
  split_and!.
  - unfold Mat_empty in Hne. destruct (data image); [|done].
    apply Z.eqb_neq in Hne.
    unfold session_inv. simpl.
    split_and!; [| |by exists (length h), (length (h ++ [px]));
                     rewrite length_app; simpl; split_and!; [done..|lia]
                 |done|done|nia|nia].
    + apply contents_fresh. by apply contents_app.
    + by exists px.
  - done.
  - intros events. unfold runBlemishRemoval.
    rewrite (clone_Ok _ _ _ Hne Hpx). simpl.
    by rewrite (clone_Ok _ _ _ Hne (contents_app _ [px] _ _ Hpx)).
Qed.

Section Frame.
Context `{Imgproc} `{Photo}.

Lemma onMouse_effect (px : Grid Vec3b) (s : Session) (event x y : Z)
    (g : Mat) (h : heap) (ag : nat) :
  session_inv px s → data (g_sourceImage s) = Some ag →
  onMouse event x y (g_sourceImage s) (store s) = Ok (g, h) →
  g = g_sourceImage s ∧ untouched ag (store s) h.
Proof.
  intros Hinv Hag.
  pose proof Hinv as (Ho & [gpx Hg] & _ & Hrows & Hcols & Hr & Hc).
  unfold onMouse. destruct (negb (event =? EVENT_LBUTTONDOWN)).
  { intros [= <- <-]. split; [done|apply untouched_refl]. }
  assert (Hv : valid (store s) (g_sourceImage s)).
  { split_and!; [lia..|by eexists]. }
  destruct (selectBestPatch _ _ _ _) as [[patch h1]| |] eqn:Hsel; [|done..].
  destruct (selectBestPatch_extends _ _ _ _ _ _ Hv Hsel) as [k ->].
  simpl.
  destruct (Mat_empty patch).
  { intros [= <- <-]. split; [done|apply untouched_app]. }
  unfold seamlessClone.
  destruct (contents (store s ++ k) patch) as [spx|]; [|done].
  rewrite (contents_app _ k _ _ Hg).
  destruct (seamlessClone_px _ _ _ _) as [f|]; [|done].
  destruct (Mat_assign_in_place (store s ++ k) (g_sourceImage s) gpx
              (imap (λ y row, imap (λ x _, f y x) row) gpx) ag)
    as (buf & Hbuf & -> & Hnew);
    [by apply contents_app|done|lia..| |].
  { apply imap_shape. eapply contents_shape, Hg. }
  intros [= <- <-]. split; [done|].
  eapply untouched_trans; [apply untouched_app|apply untouched_insert].
Qed.

Lemma reset_effect (px : Grid Vec3b) (s : Session) (g : Mat) (h : heap)
    (ag : nat) :
  session_inv px s → data (g_sourceImage s) = Some ag →
  copyTo (original s) (g_sourceImage s) (store s) = Ok (g, h) →
  g = g_sourceImage s ∧ untouched ag (store s) h ∧ contents h g = Some px.
Proof.
  intros Hinv Hag.
  pose proof Hinv as (Ho & [gpx Hg] & (ag' & ao & Hag' & Hao & Hne) & Hrows
                      & Hcols & Hr & Hc).
  destruct (Mat_assign_in_place (store s) (g_sourceImage s) gpx px ag)
    as (buf & Hbuf & Hassign & Hnew); [done|done|lia..| |].
  { rewrite Hrows, Hcols. eapply contents_shape, Ho. }
  unfold copyTo, Mat_empty. rewrite Hao, Ho.
  assert ((rows (original s) * cols (original s) =? 0) = false) as ->
    by (apply Z.eqb_neq; nia).
  rewrite <- Hrows, <- Hcols, Hassign. intros [= <- <-].
  split; [done|]. split; [apply untouched_insert|done].
Qed.

Lemma loop_step_frame (px : Grid Vec3b) (s : Session) (e : Event)
    (st : Status) (ag : nat) :
  session_inv px s → data (g_sourceImage s) = Some ag →
  loop_step s e = Ok st →
  session_inv px (session_of st) ∧
  g_sourceImage (session_of st) = g_sourceImage s ∧
  original (session_of st) = original s ∧
  untouched ag (store s) (store (session_of st)).
Proof.
  intros Hinv Hag. destruct e as [event x y|ret]; cbn [loop_step].
  - destruct (onMouse event x y (g_sourceImage s) (store s))
      as [[g h]| |] eqn:Hm; [|done..].
    simpl. intros [= <-]. cbn [session_of].
    destruct (onMouse_effect px s event x y g h ag Hinv Hag Hm) as [-> Hu].
    split; [by eapply onMouse_inv|]. done.
  - destruct (Z.land ret 255 =? key_Esc).
    { intros [= <-]. cbn [session_of]. split_and!; [done..|].
      apply untouched_refl. }
    destruct ((Z.land ret 255 =? key_c) || (Z.land ret 255 =? key_C)).
    + destruct (copyTo (original s) (g_sourceImage s) (store s))
        as [[g h]| |] eqn:Hcopy; [|done..].
      simpl. intros [= <-]. cbn [session_of].
      destruct (reset_effect px s g h ag Hinv Hag Hcopy) as (-> & Hu & _).
      destruct (reset_restores px s Hinv) as (h' & Hcopy' & _ & Hinv').
      rewrite Hcopy in Hcopy'. injection Hcopy' as <-. done.
    + intros [= <-]. cbn [session_of]. split_and!; [done..|].
      apply untouched_refl.
Qed.

Lemma loop_frame (px : Grid Vec3b) (events : list Event) : ∀ s st ag,
  session_inv px s → data (g_sourceImage s) = Some ag →
  loop s events = Ok st →
  session_inv px (session_of st) ∧
  g_sourceImage (session_of st) = g_sourceImage s ∧
  original (session_of st) = original s ∧
  untouched ag (store s) (store (session_of st)).
Proof.
  induction events as [|e events IH]; intros s st ag Hinv Hag; cbn [loop].
  - intros [= <-]. cbn [session_of]. split_and!; [done..|].
    apply untouched_refl.
  - destruct (loop_step s e) as [st1| |] eqn:Hstep; [|done..].
    destruct (loop_step_frame px s e st1 ag Hinv Hag Hstep)
      as (Hinv1 & Hg1 & Ho1 & Hu1).
    simpl. destruct st1 as [s1|s1]; cbn [session_of] in *.
    + intros Hloop.
      destruct (IH s1 st ag Hinv1 ltac:(by rewrite Hg1) Hloop)
        as (Hinv2 & Hg2 & Ho2 & Hu2).
      split_and!; [done|congruence|congruence|].
      by eapply untouched_trans.
    + intros [= <-]. done.
Qed.

(** X8: [runBlemishRemoval] works on clones: whatever the events, the image
    it was passed and every matrix allocated before the call keep their
    pixels, the working image keeps its header and the size of the image,
    and [original] keeps the pixels of the image. *)
Theorem runBlemishRemoval_frame (h : heap) (image : Mat)
    (events : list Event) (st : Status) :
  valid h image → Mat_empty image = false →
  runBlemishRemoval image h events = Ok st →
  (∀ m pm, contents h m = Some pm →
           contents (store (session_of st)) m = Some pm) ∧
  g_sourceImage (session_of st) = fresh h image ∧
  is_Some (contents (store (session_of st)) (g_sourceImage (session_of st))) ∧
  contents (store (session_of st)) (original (session_of st))
  = contents h image.
Proof.
  intros Hv Hne Hrun.
  pose proof Hv as (_ & _ & [px Hpx]).
  destruct (runBlemishRemoval_unfold h image px Hv Hne Hpx)
    as (Hinv0 & _ & Hstart).
  rewrite Hstart in Hrun.
  destruct (loop_frame px events _ st (length h) Hinv0 eq_refl Hrun)
    as (Hinv & Hg & Ho & Hu).
  split_and!.
  - intros m pm Hm. apply (contents_frame h); [done|].
    intros a buf _ Ha. apply Hu.
    + apply lookup_lt_Some in Ha. lia.
    + unfold start_session. simpl. by do 2 apply lookup_app_l_Some.
  - by rewrite Hg.
  - by destruct Hinv as (_ & ? & _).
  - rewrite Hpx. by destruct Hinv as (? & _).
Qed.
End Frame.

Lemma runBlemishRemoval_frame_witness :
  ∃ st,
    @runBlemishRemoval ref32 paste ex_image ex_store ex_events = Ok st ∧
    (∀ m pm, contents ex_store m = Some pm →
             contents (store (session_of st)) m = Some pm) ∧
    g_sourceImage (session_of st) = fresh ex_store ex_image ∧
    is_Some (contents (store (session_of st)) (g_sourceImage (session_of st))) ∧
    contents (store (session_of st)) (original (session_of st))
    = contents ex_store ex_image.
Proof.
  assert (Hrun : ∃ st, @runBlemishRemoval ref32 paste ex_image ex_store ex_events
                       = Ok st).
  { eexists. vm_compute. reflexivity. }
  destruct Hrun as [st Hrun]. exists st. split; [exact Hrun|].
  apply (@runBlemishRemoval_frame ref32 paste ex_store ex_image ex_events st).
  - valid_by_compute.
  - reflexivity.
  - exact Hrun.
Defined.

(** ** Sessions without clicks *)

Section Clean.
Context `{Imgproc} `{Photo}.

Lemma loop_no_click (px : Grid Vec3b) (events : list Event) : ∀ s,
  session_inv px s →
  contents (store s) (g_sourceImage s) = Some px →
  forallb (λ e, negb (is_click e)) events = true →
  ∃ st, loop s events = Ok st ∧
        contents (store (session_of st)) (g_sourceImage (session_of st))
        = Some px.
Proof.
  induction events as [|e events IH]; intros s Hinv Hg Hno.
  { exists (Looping s). by split. }
  cbn [forallb] in Hno. apply andb_true_iff in Hno as [He Hno].
  cbn [loop]. destruct e as [event x y|ret]; cbn [loop_step].
  - cbn [is_click] in He. unfold onMouse. rewrite He. simpl.
    apply (IH (mkSession (g_sourceImage s) (original s) (store s)));
      [by destruct s..|done].
  - destruct (Z.land ret 255 =? key_Esc).
    { exists (Returned s). by split. }
    destruct ((Z.land ret 255 =? key_c) || (Z.land ret 255 =? key_C)).
    + destruct (reset_restores px s Hinv) as (h' & -> & Hc & Hinv').
      simpl. by apply IH.
    + simpl. by apply IH.
Qed.

(** X9: without a left-button press the loop cannot fail, and the working
    image has the pixels of the image passed in at every moment. *)
Theorem runBlemishRemoval_no_click (h : heap) (image : Mat)
    (events : list Event) :
  valid h image → Mat_empty image = false →
  forallb (λ e, negb (is_click e)) events = true →
  ∃ st,
    runBlemishRemoval image h events = Ok st ∧
    contents (store (session_of st)) (g_sourceImage (session_of st))
    = contents h image.
Proof.
  intros Hv Hne Hno.
  pose proof Hv as (_ & _ & [px Hpx]).
  destruct (runBlemishRemoval_unfold h image px Hv Hne Hpx)
    as (Hinv0 & Hg0 & Hstart).
  rewrite Hstart, Hpx. by apply loop_no_click.
Qed.

(** X10: a working image that has the pixels of the image passed in (as it has
    right after a reset) keeps them until the next left-button press. *)
Theorem runBlemishRemoval_stays_clean (h : heap) (image : Mat)
    (pre post : list Event) (s : Session) :
  valid h image → Mat_empty image = false →
  runBlemishRemoval image h pre = Ok (Looping s) →
  contents (store s) (g_sourceImage s) = contents h image →
  forallb (λ e, negb (is_click e)) post = true →
  ∃ st,
    runBlemishRemoval image h (pre ++ post) = Ok st ∧
    contents (store (session_of st)) (g_sourceImage (session_of st))
    = contents h image.
Proof.
  intros Hv Hne Hrun Hclean Hno.
  pose proof Hv as (_ & _ & [px Hpx]).
  destruct (runBlemishRemoval_unfold h image px Hv Hne Hpx)
    as (Hinv0 & _ & Hstart).
  rewrite Hstart in Hrun.
  pose proof (loop_inv px pre _ s Hinv0 Hrun) as Hinv.
  rewrite Hstart, (loop_app _ _ _ _ Hrun), Hpx.
  apply loop_no_click; [done| |done]. by rewrite Hclean.
Qed.
End Clean.

Lemma runBlemishRemoval_no_click_witness :
  ∃ st,
    @runBlemishRemoval ref32 paste cx_image cx_store
      [MouseEvent 0 1 1; WaitKey 99; WaitKey (-1)] = Ok st ∧
    contents (store (session_of st)) (g_sourceImage (session_of st))
    = contents cx_store cx_image.
Proof.
  apply (@runBlemishRemoval_no_click ref32 paste cx_store cx_image
           [MouseEvent 0 1 1; WaitKey 99; WaitKey (-1)]).
  - valid_by_compute.
  - reflexivity.
  - reflexivity.
Defined.

Lemma runBlemishRemoval_stays_clean_witness :
  ∃ st,
    @runBlemishRemoval ref32 paste ex_image ex_store
      ((ex_events ++ [WaitKey 99]) ++ [MouseEvent 0 5 5; WaitKey 27]) = Ok st ∧
    contents (store (session_of st)) (g_sourceImage (session_of st))
    = contents ex_store ex_image.
Proof.
  assert (Hpre : ∃ s, @runBlemishRemoval ref32 paste ex_image ex_store
                        (ex_events ++ [WaitKey 99]) = Ok (Looping s) ∧
                      contents (store s) (g_sourceImage s)
                      = contents ex_store ex_image).
  { eexists. split; vm_compute; reflexivity. }
  destruct Hpre as (s' & Hrun & Hc).
  apply (@runBlemishRemoval_stays_clean ref32 paste ex_store ex_image
           (ex_events ++ [WaitKey 99]) [MouseEvent 0 5 5; WaitKey 27] s').
  - valid_by_compute.
  - reflexivity.
  - exact Hrun.
  - exact Hc.
  - reflexivity.
Defined.

(** ** Failures of the session *)

Section Failure.
Context `{Imgproc} `{Photo}.

Lemma onMouse_failure (px : Grid Vec3b) (s : Session) (event x y : Z) :
  session_inv px s →
  onMouse event x y (g_sourceImage s) (store s) ≠ Undefined ∧
  (onMouse event x y (g_sourceImage s) (store s) = Throw →
   event = EVENT_LBUTTONDOWN ∧
   ((overflows x y ∧ ¬ click_in_range x y) ∨
    ∃ spx dpx,
      shape 41 41 spx ∧
      shape (Z.to_nat (rows (original s))) (Z.to_nat (cols (original s))) dpx ∧
      seamlessClone_px spx dpx
        (circle_px (zeros 41 41) (mkPoint kDefaultRad kDefaultRad)
           kDefaultRad 255)
        (mkPoint x y) = None)).
Proof.
  intros (Ho & [gpx Hg] & (ag & ao & Hag & Hao & Hne) & Hrows & Hcols
          & Hr & Hc).
  unfold onMouse. destruct (event =? EVENT_LBUTTONDOWN) eqn:He; [|done].
  apply Z.eqb_eq in He. cbn [negb].
  assert (Hv : valid (store s) (g_sourceImage s)).
  { split_and!; [lia..|by eexists]. }
  destruct (selectBestPatch_spec (store s) (g_sourceImage s) (mkPoint x y)
              kDefaultRad Hv)
    as [[Ht (d & Hd & Hb & Hview)]|(patch & k & Hsel & _)].
  { rewrite Ht. simpl. split; [done|]. intros _. split; [done|]. left.
    assert (Hno : no_overflow (mkPoint x y) kDefaultRad d = false).
    { destruct (no_overflow (mkPoint x y) kDefaultRad d) eqn:Hno; [|done].
      destruct (inBounds_patchView (g_sourceImage s) (mkPoint x y)
                  kDefaultRad d)
        as [v Hv']; [unfold kDefaultRad; lia|done|done|congruence]. }
    split; [by exists d|].
    intros [Hx Hy].
    rewrite (no_overflow_inside (mkPoint x y) kDefaultRad d Hd) in Hno;
      [done|unfold int_range, kDefaultRad in *; cbn [pt_x pt_y]; lia..]. }
  rewrite Hsel. simpl.
  destruct (selectBestPatch_square _ _ _ _ _ kDefaultRad Hv
              ltac:(unfold kDefaultRad; lia) Hsel)
    as [->|(a & spx & Hb & _ & _ & _ & Hcont & Hsh)]; [done|].
  rewrite Hb in *. unfold Mat_empty. cbn [data rows cols].
  change (2 * kDefaultRad + 1) with 41 in *.
  change (41 * 41 =? 0) with false. cbv iota.
  unfold seamlessClone.
  rewrite Hcont.
  rewrite (contents_app _ k _ _ Hg).
  destruct (seamlessClone_px spx gpx _ _) as [f|] eqn:Hclone.
  - destruct (Mat_assign_in_place (store s ++ k) (g_sourceImage s) gpx
                (imap (λ y row, imap (λ x _, f y x) row) gpx) ag)
      as (buf & Hbuf & -> & Hnew);
      [by apply contents_app|done|lia..| |done].
    apply imap_shape. eapply contents_shape, Hg.
  - split; [done|]. intros _. split; [done|]. right. exists spx, gpx.
    split_and!; [done| |done].
    rewrite <- Hrows, <- Hcols. eapply contents_shape, Hg.
Qed.

Lemma loop_failure (px : Grid Vec3b) (events : list Event) : ∀ s,
  session_inv px s →
  loop s events ≠ Undefined ∧
  (loop s events = Throw →
   ∃ x y,
     MouseEvent EVENT_LBUTTONDOWN x y ∈ events ∧
     ((overflows x y ∧ ¬ click_in_range x y) ∨
      ∃ spx dpx,
        shape 41 41 spx ∧
        shape (Z.to_nat (rows (original s))) (Z.to_nat (cols (original s))) dpx ∧
        seamlessClone_px spx dpx
          (circle_px (zeros 41 41) (mkPoint kDefaultRad kDefaultRad)
             kDefaultRad 255)
          (mkPoint x y) = None)).
Proof.
  induction events as [|e events IH]; intros s Hinv; [done|].
  cbn [loop].
  destruct (loop_step s e) as [st1| |] eqn:Hstep.
  - assert (Hnext : ∀ s1, st1 = Looping s1 →
                          session_inv px s1 ∧ original s1 = original s).
    { intros s1 ->.
      pose proof Hinv as (_ & _ & (ag & _ & Hag & _) & _).
      by destruct (loop_step_frame px s e _ ag Hinv Hag Hstep)
        as (? & _ & ? & _). }
    simpl. destruct st1 as [s1|s1]; [|done].
    destruct (Hnext s1 eq_refl) as [Hinv1 Ho1].
    destruct (IH s1 Hinv1) as [Hu Ht]. split; [done|].
    intros Hthrow. destruct (Ht Hthrow) as (x & y & Hin & Hrest).
    exists x, y. rewrite <- Ho1. split; [by right|done].
  - simpl. split; [done|]. intros _.
    destruct e as [event x y|ret]; cbn [loop_step] in Hstep.
    + destruct (onMouse_failure px s event x y Hinv) as [_ Ht].
      destruct (onMouse event x y (g_sourceImage s) (store s))
        as [[g h]| |]; [done| |done].
      destruct (Ht eq_refl) as (-> & Hrest).
      exists x, y. split; [by left|done].
    + destruct (Z.land ret 255 =? key_Esc); [done|].
      destruct ((Z.land ret 255 =? key_c) || (Z.land ret 255 =? key_C));
        [|done].
      destruct (reset_restores px s Hinv) as (h' & Hcopy & _).
      by rewrite Hcopy in Hstep.
  - exfalso.
    destruct e as [event x y|ret]; cbn [loop_step] in Hstep.
    + destruct (onMouse_failure px s event x y Hinv) as [Hu _].
      by destruct (onMouse event x y (g_sourceImage s) (store s))
        as [[g h]| |].
    + destruct (Z.land ret 255 =? key_Esc); [done|].
      destruct ((Z.land ret 255 =? key_c) || (Z.land ret 255 =? key_C));
        [|done].
      destruct (reset_restores px s Hinv) as (h' & Hcopy & _).
      by rewrite Hcopy in Hstep.
Qed.

(** X11: a session on a readable, non-empty image never touches memory outside
    an allocation, and it can fail in two ways only, both at a left-button
    press: the candidate arithmetic of the click leaves [int], which takes
    a click within 61 of an end of the range of [int], or an assertion
    fails inside [seamlessClone], called with a 41x41 patch, an image of
    the size of the input and the disc mask. *)
Theorem runBlemishRemoval_failure (h : heap) (image : Mat)
    (events : list Event) :
  valid h image → Mat_empty image = false →
  runBlemishRemoval image h events ≠ Undefined ∧
  (runBlemishRemoval image h events = Throw →
   ∃ x y,
     MouseEvent EVENT_LBUTTONDOWN x y ∈ events ∧
     ((overflows x y ∧ ¬ click_in_range x y) ∨
      ∃ spx dpx,
        shape 41 41 spx ∧
        shape (Z.to_nat (rows image)) (Z.to_nat (cols image)) dpx ∧
        seamlessClone_px spx dpx
          (circle_px (zeros 41 41) (mkPoint kDefaultRad kDefaultRad)
             kDefaultRad 255)
          (mkPoint x y) = None)).
Proof.
  intros Hv Hne.
  pose proof Hv as (_ & _ & [px Hpx]).
  destruct (runBlemishRemoval_unfold h image px Hv Hne Hpx)
    as (Hinv0 & _ & Hstart).
  rewrite Hstart. apply (loop_failure px events _ Hinv0).
Qed.
End Failure.

Lemma runBlemishRemoval_failure_witness :
  ∃ x y,
    MouseEvent EVENT_LBUTTONDOWN x y ∈ ex_events ∧
    ((overflows x y ∧ ¬ click_in_range x y) ∨
     ∃ spx dpx,
       shape 41 41 spx ∧
       shape (Z.to_nat (rows ex_image)) (Z.to_nat (cols ex_image)) dpx ∧
       @seamlessClone_px strict spx dpx
         (@circle_px strict (zeros 41 41) (mkPoint kDefaultRad kDefaultRad)
            kDefaultRad 255)
         (mkPoint x y) = None).
Proof.
  apply (@runBlemishRemoval_failure ref32 strict ex_store ex_image ex_events).
  - valid_by_compute.
  - reflexivity.
  - vm_compute. reflexivity.
Defined.

(** ** Loading, saving and main *)

Lemma tabulate_shape (r c : nat) (f : nat → nat → Vec3b) :
  shape r c (tabulate r c f).
Proof.
  unfold tabulate. split; [by rewrite length_fmap, length_seq|].
  intros row (y & -> & _)%list_elem_of_fmap.
  by rewrite length_fmap, length_seq.
Qed.

Lemma imread_valid `{Imgcodecs} (path : string) (flags : Z) (h h' : heap)
    (img : Mat) :
  imread path flags h = (img, h') → Mat_empty img = false →
  ∃ r c f,
    imread_px path flags = Some (r, c, f) ∧
    img = mkMat (Some (length h)) 0 0 (Z.of_nat r) (Z.of_nat c) ∧
    h' = h ++ [tabulate r c f] ∧
    valid h' img ∧ contents h' img = Some (tabulate r c f).
Proof.
  unfold imread. destruct (imread_px path flags) as [[[r c] f]|].
  - intros [= <- <-] Hne. exists r, c, f. split_and!; [done..| |].
    + split_and!; simpl; [lia..|]. eexists.
      apply contents_whole; [by apply list_lookup_middle|].
      rewrite !Nat2Z.id. apply tabulate_shape.
    + apply contents_whole; [by apply list_lookup_middle|].
      rewrite !Nat2Z.id. apply tabulate_shape.
  - by intros [= <- <-].
Qed.






(** X14: whatever happened in the window, the image written has the height and
    the width of the image read. *)
Theorem main_output_size `{Imgproc} `{Photo} `{Imgcodecs} (events : list Event)
    (disk : Disk) :
  main events = Ok (Terminated EXIT_SUCCESS disk) →
  ∃ r c f px,
    imread_px (path_append kDataDir kInputRelative) IMREAD_COLOR
      = Some (r, c, f) ∧
    disk = [(path_append kDataDir kOutputRelative, px)] ∧
    shape r c px.
Proof.
  unfold main, loadImageOrExit.
  destruct (imread _ _ _) as [img h] eqn:Him.
  destruct (Mat_empty img) eqn:Hne; [done|].
  destruct (imread_valid _ _ _ _ _ Him Hne)
    as (r & c & f & Hread & -> & -> & Hv & Hpx).
  destruct (runBlemishRemoval_unfold _ _ _ Hv Hne Hpx) as (Hinv0 & _ & Hstart).
  rewrite Hstart.
  destruct (loop _ events) as [[s|s]| |] eqn:Hloop; [done| |done..].
  destruct (loop_frame _ events _ _ 1%nat Hinv0 eq_refl Hloop)
    as (_ & Hhdr & _).
  cbn [session_of start_session g_sourceImage] in Hhdr.
  simpl. unfold saveImageOrExit, imwrite.
  destruct (Mat_empty (g_sourceImage s)); [done|].
  destruct (contents (store s) (g_sourceImage s)) as [px|] eqn:Hc; [|done].
  destruct (imwrite_px (path_append kDataDir kOutputRelative) px) as [[|]|];
    simpl; [|by unfold EXIT_FAILURE, EXIT_SUCCESS|done].
  intros [= <-]. exists r, c, f, px. split_and!; [done..|].
  apply contents_shape in Hc. rewrite Hhdr in Hc. simpl in Hc.
  by rewrite !Nat2Z.id in Hc.
Qed.

Lemma main_output_size_witness :
  ∃ r c f px,
    @imread_px ex_codecs
      (@path_append ex_codecs (@kDataDir ex_codecs) kInputRelative) IMREAD_COLOR
      = Some (r, c, f) ∧
    [(@path_append ex_codecs (@kDataDir ex_codecs) kOutputRelative, cx_grid)]
    = [(@path_append ex_codecs (@kDataDir ex_codecs) kOutputRelative, px)] ∧
    shape r c px.
Proof.
  apply (@main_output_size ref32 paste ex_codecs [WaitKey 27]).
  vm_compute. reflexivity.
Defined.

(** X15: whatever the file system, the codecs and the events, the program
    never reads or writes a pixel outside an allocation, and whenever the
    loop returns, the image handed to [saveImageOrExit] is not empty, is
    the first clone of the decoded input and can be read. *)
Theorem main_memory_safe `{Imgproc} `{Photo} `{Imgcodecs}
    (events : list Event) :
  main events ≠ Undefined ∧
  ∀ input h s,
    loadImageOrExit (path_append kDataDir kInputRelative) IMREAD_COLOR []
      = Returns (input, h) →
    runBlemishRemoval input h events = Ok (Returned s) →
    Mat_empty (g_sourceImage s) = false ∧
    g_sourceImage s = fresh h input ∧
    is_Some (contents (store s) (g_sourceImage s)) ∧
    saveImageOrExit (path_append kDataDir kOutputRelative)
      (g_sourceImage s) (store s) [] ≠ Undefined.
Proof.
  assert (Hsave : ∀ input h s,
            loadImageOrExit (path_append kDataDir kInputRelative)
              IMREAD_COLOR [] = Returns (input, h) →
            runBlemishRemoval input h events = Ok (Returned s) →
            Mat_empty (g_sourceImage s) = false ∧
            g_sourceImage s = fresh h input ∧
            is_Some (contents (store s) (g_sourceImage s)) ∧
            saveImageOrExit (path_append kDataDir kOutputRelative)
              (g_sourceImage s) (store s) [] ≠ Undefined).
  { intros input h s. unfold loadImageOrExit.
    destruct (imread _ _ _) as [img h0] eqn:Him.
    destruct (Mat_empty img) eqn:Hne; [done|]. intros [= <- <-].
    destruct (imread_valid _ _ _ _ _ Him Hne)
      as (r & c & f & Hread & -> & -> & Hv & Hpx).
    destruct (runBlemishRemoval_unfold _ _ _ Hv Hne Hpx)
      as (Hinv0 & _ & Hstart).
    rewrite Hstart. intros Hloop.
    destruct (loop_frame _ events _ _ 1%nat Hinv0 eq_refl Hloop)
      as ((_ & [gpx Hg] & _) & Hhdr & _).
    cbn [session_of start_session g_sourceImage] in Hg, Hhdr.
    assert (Hfresh : Mat_empty (g_sourceImage s) = false).
    { rewrite Hhdr. by apply Mat_empty_fresh. }
    split_and!; [done|done|by eexists|].
    unfold saveImageOrExit, imwrite. rewrite Hfresh, Hg.
    by destruct (imwrite_px (path_append kDataDir kOutputRelative) gpx)
      as [[|]|]. }
  split; [|exact Hsave].
  unfold main.
  destruct (loadImageOrExit _ _ _) as [[input h]|code] eqn:Hload; [|done].
  assert (Hrun : runBlemishRemoval input h events ≠ Undefined).
  { revert Hload. unfold loadImageOrExit.
    destruct (imread _ _ _) as [img h0] eqn:Him.
    destruct (Mat_empty img) eqn:Hne; [done|]. intros [= <- <-].
    destruct (imread_valid _ _ _ _ _ Him Hne)
      as (r & c & f & Hread & -> & -> & Hv & Hpx).
    destruct (runBlemishRemoval_unfold _ _ _ Hv Hne Hpx)
      as (Hinv0 & _ & Hstart).
    rewrite Hstart. by destruct (loop_failure _ events _ Hinv0). }
  destruct (runBlemishRemoval input h events) as [[s|s]| |] eqn:Hloop;
    [done| |done..].
  destruct (Hsave input h s eq_refl Hloop) as (_ & _ & _ & Hs).
  simpl.
  by destruct (saveImageOrExit _ _ _ _) as [[disk|code]| |].
Qed.

Lemma main_memory_safe_witness :
  @main ref32 paste ex_codecs [WaitKey 27] ≠ Undefined ∧
  ∃ input h s,
    @loadImageOrExit ex_codecs
      (@path_append ex_codecs (@kDataDir ex_codecs) kInputRelative)
      IMREAD_COLOR [] = Returns (input, h) ∧
    @runBlemishRemoval ref32 paste input h [WaitKey 27] = Ok (Returned s) ∧
    Mat_empty (g_sourceImage s) = false ∧
    g_sourceImage s = fresh h input ∧
    is_Some (contents (store s) (g_sourceImage s)) ∧
    @saveImageOrExit ex_codecs
      (@path_append ex_codecs (@kDataDir ex_codecs) kOutputRelative)
      (g_sourceImage s) (store s) [] ≠ Undefined.
Proof.
  destruct (@main_memory_safe ref32 paste ex_codecs [WaitKey 27])
    as [Hmain Hsave].
  split; [exact Hmain|].
  assert (Hrun : ∃ input h s,
            @loadImageOrExit ex_codecs
              (@path_append ex_codecs (@kDataDir ex_codecs) kInputRelative)
              IMREAD_COLOR [] = Returns (input, h) ∧
            @runBlemishRemoval ref32 paste input h [WaitKey 27]
            = Ok (Returned s)).
  { do 3 eexists. split; vm_compute; reflexivity. }
  destruct Hrun as (input & h & s & Hload & Hloop).
  exists input, h, s. split; [exact Hload|]. split; [exact Hloop|].
  exact (Hsave input h s Hload Hloop).
Defined.

(** ** Where the candidate arithmetic is defined *)

(** X16: for a radius in the range of [int] and a centre at least
    [3 * |radius| + 1] away from both ends of that range, in each
    coordinate, the candidate of every direction of [kDirs] is computed
    inside [int]: the two casts are defined, the candidate centre is at
    most [2 * |radius|] away from the centre in each coordinate, and no
    addition or subtraction overflows. *)
Theorem no_overflow_bounded (center : Point) (radius : Z) (d : Point2d) :
  d ∈ kDirs → int_range radius →
  int_range (pt_x center - 3 * Z.abs radius - 1) →
  int_range (pt_x center + 3 * Z.abs radius + 1) →
  int_range (pt_y center - 3 * Z.abs radius - 1) →
  int_range (pt_y center + 3 * Z.abs radius + 1) →
  no_overflow center radius d = true ∧
  Z.abs (pt_x (srcCenter center radius d) - pt_x center) ≤ 2 * Z.abs radius ∧
  Z.abs (pt_y (srcCenter center radius d) - pt_y center) ≤ 2 * Z.abs radius.
Proof.
  intros Hd Hr Hxl Hxh Hyl Hyh.
  split; [by apply no_overflow_inside|].
  destruct (srcCenter_reach center radius d Hd)
    as [[_ Hbx] [_ Hby]]; [unfold int_range in *; lia..|].
  lia.
Qed.

Lemma no_overflow_bounded_witness :
  no_overflow (mkPoint 1000000 (-5)) 20 dir_NW = true ∧
  Z.abs (pt_x (srcCenter (mkPoint 1000000 (-5)) 20 dir_NW)
         - pt_x (mkPoint 1000000 (-5))) ≤ 2 * Z.abs 20 ∧
  Z.abs (pt_y (srcCenter (mkPoint 1000000 (-5)) 20 dir_NW)
         - pt_y (mkPoint 1000000 (-5))) ≤ 2 * Z.abs 20.
Proof.
  apply (no_overflow_bounded (mkPoint 1000000 (-5)) 20 dir_NW).
  - apply kDirs_elems.
  - unfold int_range. lia.
  - unfold int_range. simpl. lia.
  - unfold int_range. simpl. lia.
  - unfold int_range. simpl. lia.
  - unfold int_range. simpl. lia.
Defined.

(** X17: when the squares of radius [radius] around the four axis
    candidates lie inside an image whose sizes fit an [int], the
    candidates of all eight directions are computed without overflow and
    pass the guard. *)
Theorem candidates_inside (image : Mat) (center : Point) (radius : Z)
    (d : Point2d) :
  d ∈ kDirs → 0 ≤ radius →
  cols image < 2 ^ 31 → rows image < 2 ^ 31 →
  3 * radius ≤ pt_x center → pt_x center + 3 * radius + 1 ≤ cols image →
  3 * radius ≤ pt_y center → pt_y center + 3 * radius + 1 ≤ rows image →
  no_overflow center radius d = true ∧ inBounds image center radius d = true.
Proof.
  intros Hd Hr Hc Hrows Hxl Hxh Hyl Hyh.
  assert (Hno : no_overflow center radius d = true).
  { apply no_overflow_inside; [done|unfold int_range; lia..]. }
  split; [done|].
  destruct (srcCenter_reach center radius d Hd)
    as [[_ Hbx] [_ Hby]]; [unfold int_range; lia..|].
  unfold inBounds, outOfBounds.
  rewrite (candidate_no_overflow _ _ _ Hno). cbn [x0 y0 x1 y1].
  rewrite negb_true_iff, !orb_false_iff, !Z.gtb_ltb, !Z.ltb_ge. lia.
Qed.

Lemma candidates_inside_witness :
  no_overflow cx_center 1 dir_SW = true ∧
  inBounds cx_image cx_center 1 dir_SW = true.
Proof.
  apply (candidates_inside cx_image cx_center 1 dir_SW).
  - apply kDirs_elems.
  - lia.
  - simpl. lia.
  - simpl. lia.
  - simpl. lia.
  - simpl. lia.
  - simpl. lia.
  - simpl. lia.
Defined.

